(** * stargz-snapshotter: the chunked reader and the remote resolver

    A shallow embedding of [package reader] (the stargz file reader, the
    prefetcher and the tar-to-cache walker) and of [package remote]
    (resolver, refresh and the multi-range fetcher), followed by the
    properties stated about them.

    Conventions.
    - Go's [int] and [int64] are both 64-bit two's complement integers;
      they are carried as [Z] and sums and differences are wrapped by
      [wrap64].
    - A Go [error] value is an [option error]; [None] is [nil].
    - A byte slice is a [list byte]; slicing and [make] panic exactly where
      Go's do, and a panic is an explicit outcome.
    - Loops whose termination depends on the table of contents take fuel. *)

From stdpp Require Import base option list gmap strings pretty.
From Stdlib Require Import ZArith Strings.Byte Strings.Ascii Lia.

Open Scope Z_scope.

(** ** Go primitives *)
Module Go.

(** Arguments of a format string, kept unrendered: the verbs [%q], [%d]
    and [%v] of an error message are recorded with the value they print. *)
Inductive error : Type :=
| EOF                                   (* io.EOF *)
| ErrUnexpectedEOF                      (* io.ErrUnexpectedEOF *)
| Errorf (format : string) (args : list fmtarg)
| Wrapped (cause : error) (format : string) (args : list fmtarg)
| Foreign (what : string)               (* raised by a library outside this repository *)
with fmtarg : Type :=
| FStr (s : string)
| FInt (z : Z)
| FErr (e : error).

Definition is_EOF (e : error) : bool :=
  match e with EOF => true | _ => false end.

Definition is_ErrUnexpectedEOF (e : error) : bool :=
  match e with ErrUnexpectedEOF => true | _ => false end.

(** [errors.Wrapf] of github.com/pkg/errors: wrapping [nil] yields [nil]. *)
Definition Wrapf (err : option error) (format : string) (args : list fmtarg)
  : option error :=
  match err with
  | None => None
  | Some e => Some (Wrapped e format args)
  end.

(** [errors.Wrap]. *)
Definition Wrap (err : option error) (message : string) : option error :=
  Wrapf err message [].

Definition wrap64 (z : Z) : Z := (z + 2 ^ 63) mod 2 ^ 64 - 2 ^ 63.
Definition add64 (a b : Z) : Z := wrap64 (a + b).
Definition sub64 (a b : Z) : Z := wrap64 (a - b).

Definition len {A} (l : list A) : Z := Z.of_nat (length l).

(** [make([]byte, n)] for [0 <= n]; callers check the sign first. *)
Definition make (n : Z) : list byte := replicate (Z.to_nat n) x00.

(** The builtin [copy(dst, src)]: the new contents of [dst] and the number
    of bytes copied. *)
Definition copy (dst src : list byte) : list byte * Z :=
  let n := Nat.min (length dst) (length src) in
  (take n src ++ drop n dst, Z.of_nat n).

(** [%d] *)
Definition fmt_d (z : Z) : string := pretty z.

(** [strings.TrimSuffix s "/"] *)
Fixpoint trim_slash (s : string) : string :=
  match s with
  | EmptyString => EmptyString
  | String a EmptyString => if Ascii.eqb a "/"%char then EmptyString else s
  | String a s' => String a (trim_slash s')
  end.

(** [strings.Contains s "/"] *)
Fixpoint contains_slash (s : string) : bool :=
  match s with
  | EmptyString => false
  | String a s' => Ascii.eqb a "/"%char || contains_slash s'
  end.

End Go.

(** ** package reader *)
Module Reader.
Import Go.

Definition PrefetchLandmark : string := ".prefetch.landmark".
Definition NoPrefetchLandmark : string := ".no.prefetch.landmark".
(** [stargz.TOCTarName] of github.com/google/crfs. *)
Definition TOCTarName : string := "stargz.index.json".

(** The fields of [stargz.TOCEntry] that the package reads. *)
Record TOCEntry : Type := {
  Name : string;
  Digest : string;
  Offset : Z;
  ChunkOffset : Z;
  ChunkSize : Z
}.

(** [*stargz.Reader] of github.com/google/crfs, through the two methods
    called on it. *)
Record StargzReader : Type := {
  r_Lookup : string -> option TOCEntry;
  r_ChunkEntryForOffset : string -> Z -> option TOCEntry
}.

(** [io.ReaderAt]: [ra n off] is the outcome of [ReadAt(buf, off)] on a
    buffer of [n] bytes, as the bytes delivered and the error. *)
Definition ReaderAt : Type := Z -> Z -> list byte * option error.

(** The buffer after [ra.ReadAt(data, off)]: the delivered bytes overwrite
    a prefix of [data]. *)
Definition fill (data delivered : list byte) : list byte :=
  take (length data) (delivered ++ drop (length delivered) data).

(** [cache.BlobCache]: [Fetch] answers [None] for a non-nil error. *)
Class BlobCache (C : Type) : Type := {
  Fetch : C -> string -> option (list byte);
  Add : C -> string -> list byte -> C
}.

(** Modelled from the spec: the chunk cache of package [cache], a store
    from chunk ID to bytes where [add] replaces what is stored under the
    same ID and [fetch] answers the bytes or a miss. *)
#[export] Instance MapCache : BlobCache (gmap string (list byte)) := {
  Fetch c id := c !! id;
  Add c id data := <[id := data]> c
}.

Definition total (ns : list Z) : Z := foldr Z.add 0 ns.

(** No cache at all: nothing is kept and every fetch misses. *)
Inductive NoCache : Type := no_cache.

#[export] Instance NoCache_BlobCache : BlobCache NoCache := {
  Fetch _ _ := None;
  Add c _ _ := c
}.

(** [sha256hex] stands for [fmt.Sprintf("%x", sha256.Sum256(_))]. *)
Definition genID (sha256hex : string -> string)
    (digest : string) (offset size : Z) : string :=
  sha256hex (digest +:+ "-" +:+ fmt_d offset +:+ "-" +:+ fmt_d size).

Record file : Type := {
  name : string;
  digest : string;
  ra : ReaderAt;
  r : StargzReader
}.

Section ReadAt.
Context {C : Type} `{BlobCache C}.
Variable sha256hex : string -> string.

(** What [ReadAt] holds between two iterations: the caller's buffer [p],
    the count [nr] and the cache. *)
Record rstate : Type := {
  p : list byte;
  nr : Z;
  cache : C
}.

Inductive iter_result : Type :=
| Next (n : Z) (st : rstate)      (* the body ran to its end; [n] is copy's result *)
| Break
| Return (n : Z) (err : option error) (st : rstate)
| Panic (st : rstate).

(** [n := copy(p[nr:], data[offset+int64(nr)-ce.ChunkOffset:]); nr += n].
    The sum [nr + n] is at most [len(p)], itself an [int]: it cannot
    wrap (lemma [copy_chunk_bounds]). *)
Definition copy_chunk (offset : Z) (ce : TOCEntry) (data : list byte)
    (st : rstate) : iter_result :=
  let i := sub64 (add64 offset (nr st)) (ChunkOffset ce) in
  if bool_decide (0 <= i <= len data) then
    let '(dst, n) := copy (drop (Z.to_nat (nr st)) (p st)) (drop (Z.to_nat i) data) in
    Next n {| p := take (Z.to_nat (nr st)) (p st) ++ dst;
              nr := nr st + n;
              cache := cache st |}
  else Panic st.

(** The cache probe shared by [ReadAt] and [CacheTarGzWithReader]:
    [err != nil || len(data) != int(ce.ChunkSize)] is a miss. *)
Definition probe (c : C) (id : string) (ce : TOCEntry) : option (list byte) :=
  match Fetch c id with
  | Some data => if bool_decide (len data = ChunkSize ce) then Some data else None
  | None => None
  end.

(** One run of the loop body. *)
Definition ReadAt_iter (sf : file) (offset : Z) (st : rstate) : iter_result :=
  match r_ChunkEntryForOffset (r sf) (name sf) (add64 offset (nr st)) with
  | None => Break
  | Some ce =>
    let id := genID sha256hex (digest sf) (ChunkOffset ce) (ChunkSize ce) in
    match probe (cache st) id ce with
    | Some data => copy_chunk offset ce data st
    | None =>
      if bool_decide (ChunkSize ce < 0) then Panic st
      else
        let data := make (ChunkSize ce) in
        let '(delivered, err) := ra sf (len data) (ChunkOffset ce) in
        let data := fill data delivered in
        match err with
        | Some e =>
          if is_EOF e
          then copy_chunk offset ce data
                 {| p := p st; nr := nr st; cache := Add (cache st) id data |}
          else Return 0 (Wrap (Some e) "failed to read data") st
        | None =>
          copy_chunk offset ce data
            {| p := p st; nr := nr st; cache := Add (cache st) id data |}
        end
    end
  end.

Inductive outcome : Type :=
| Returned (n : Z) (err : option error)
| Panicked
| OutOfFuel.

(** [p = p[:nr]; return len(p), nil] *)
Definition ReadAt_finish (st : rstate) : outcome * rstate :=
  if bool_decide (0 <= nr st <= len (p st))
  then (Returned (len (take (Z.to_nat (nr st)) (p st))) None, st)
  else (Panicked, st).

Fixpoint ReadAt_loop (fuel : nat) (sf : file) (offset : Z) (st : rstate)
  : outcome * rstate :=
  match fuel with
  | O => (OutOfFuel, st)
  | S fuel' =>
    if bool_decide (nr st < len (p st)) then
      match ReadAt_iter sf offset st with
      | Next _ st' => ReadAt_loop fuel' sf offset st'
      | Break => ReadAt_finish st
      | Return n err st' => (Returned n err, st')
      | Panic st' => (Panicked, st')
      end
    else ReadAt_finish st
  end.

(** [func (sf *file) ReadAt(p []byte, offset int64) (int, error)] run
    against cache [c]: the outcome, then the buffer and the cache it
    leaves. *)
Definition ReadAt (fuel : nat) (sf : file) (c : C) (buf : list byte) (offset : Z)
  : outcome * rstate :=
  ReadAt_loop fuel sf offset {| p := buf; nr := 0; cache := c |}.

(** The results of [copy] in the iterations a run goes through. *)
Fixpoint copies (fuel : nat) (sf : file) (offset : Z) (st : rstate) : list Z :=
  match fuel with
  | O => []
  | S fuel' =>
    if bool_decide (nr st < len (p st)) then
      match ReadAt_iter sf offset st with
      | Next n st' => n :: copies fuel' sf offset st'
      | _ => []
      end
    else []
  end.


(** *** Vocabulary of the statements about [ReadAt] *)


(** The bytes of a chunk: what a miss on it leaves in the fresh buffer. *)
Definition chunk_bytes (sf : file) (ce : TOCEntry) : list byte :=
  let data := make (ChunkSize ce) in
  fill data (ra sf (len data) (ChunkOffset ce)).1.

Definition chunk_id (sf : file) (ce : TOCEntry) : string :=
  genID sha256hex (digest sf) (ChunkOffset ce) (ChunkSize ce).

(** [ce] is a chunk entry of the file. *)
Definition chunk_of (sf : file) (ce : TOCEntry) : Prop :=
  exists off, r_ChunkEntryForOffset (r sf) (name sf) off = Some ce.

(** Every entry stored under a chunk ID of the file holds that chunk's
    bytes. *)
Definition cache_ok (sf : file) (c : C) : Prop :=
  forall ce data,
    chunk_of sf ce -> Fetch c (chunk_id sf ce) = Some data ->
    data = chunk_bytes sf ce.

(** The section reader serves every chunk of the file: it answers no
    error other than [io.EOF]. *)
Definition served (sf : file) : Prop :=
  forall ce err,
    chunk_of sf ce ->
    (ra sf (len (make (ChunkSize ce))) (ChunkOffset ce)).2 = Some err ->
    is_EOF err = true.

(** A chunk ID identifies one chunk of the file. *)
Definition unique_ids (sf : file) : Prop :=
  forall ce ce',
    chunk_of sf ce -> chunk_of sf ce' ->
    chunk_id sf ce = chunk_id sf ce' ->
    ChunkOffset ce = ChunkOffset ce' /\ ChunkSize ce = ChunkSize ce'.

(** The contract of [ChunkEntryForOffset] on the offsets of a file: for
    an offset that is not negative, the entry it answers contains that
    offset. Nothing is asked of the answers below 0. *)
Definition toc_contract (sf : file) : Prop :=
  forall off ce,
    0 <= off ->
    r_ChunkEntryForOffset (r sf) (name sf) off = Some ce ->
    0 <= ChunkOffset ce <= off /\ off < ChunkOffset ce + ChunkSize ce.

(** The buffer an iteration at chunk [ce] copies from: the cached bytes
    when the probe hits, the bytes just read when it misses. *)
Definition source (sf : file) (c : C) (ce : TOCEntry) : list byte :=
  match probe c (chunk_id sf ce) ce with
  | Some data => data
  | None => chunk_bytes sf ce
  end.

(** The bytes [copy] takes in the iterations a run goes through: in each
    one the first [n] bytes of [data[offset+int64(nr)-ce.ChunkOffset:]],
    [n] being the result of [copy]. *)
Fixpoint copied (fuel : nat) (sf : file) (offset : Z) (st : rstate)
  : list (list byte) :=
  match fuel with
  | O => []
  | S fuel' =>
    if bool_decide (nr st < len (p st)) then
      match r_ChunkEntryForOffset (r sf) (name sf) (add64 offset (nr st)),
            ReadAt_iter sf offset st with
      | Some ce, Next n st' =>
        take (Z.to_nat n)
          (drop (Z.to_nat (sub64 (add64 offset (nr st)) (ChunkOffset ce)))
             (source sf (cache st) ce))
          :: copied fuel' sf offset st'
      | _, _ => []
      end
    else []
  end.

End ReadAt.

(** A cache answers only what was stored: after [Add], a fetch finds what
    was just added or what was there before (an entry may be dropped). *)
Class LawfulCache (C : Type) `{BlobCache C} : Prop :=
  fetch_add : forall (c : C) id data id' x,
    Fetch (Add c id data) id' = Some x ->
    (id' = id /\ x = data) \/ Fetch c id' = Some x.

(** *** The tar stream and the section reader

    [archive/tar] over [compress/gzip] and [io.SectionReader] belong to
    Go's library; they are carried by what the package observes of them. *)

Record tarEntry : Type := {
  h_Name : string;
  h_Size : Z;
  content : list byte       (* the bytes of the entry that the stream holds *)
}.

(** [*tar.Reader]: the unread bytes of the current entry, whether the
    stream ends before the entry does, the entries still to come and the
    error [Next] answers after the last one. *)
Record TarReader : Type := {
  cur : list byte;
  cur_short : bool;
  pending : list tarEntry;
  tail_err : error
}.

(** [tr.Next()] *)
Definition tar_Next (t : TarReader) : (tarEntry * TarReader) + error :=
  match pending t with
  | [] => inr (tail_err t)
  | e :: es =>
    inl (e, {| cur := take (Z.to_nat (h_Size e)) (content e);
               cur_short := bool_decide (len (content e) < h_Size e);
               pending := es;
               tail_err := tail_err t |})
  end.

(** [io.ReadFull(tr, data)]: the buffer, the error and the reader after. *)
Definition tar_ReadFull (t : TarReader) (data : list byte)
  : list byte * option error * TarReader :=
  let n := length data in
  let rest := {| cur := drop n (cur t); cur_short := cur_short t;
                 pending := pending t; tail_err := tail_err t |} in
  if bool_decide (n = 0)%nat then (data, None, t)
  else if bool_decide (n <= length (cur t))%nat then (take n (cur t), None, rest)
  else if bool_decide (cur t = [] /\ cur_short t = false) then (data, Some EOF, rest)
  else (fill data (cur t), Some ErrUnexpectedEOF, rest).

(** [*io.SectionReader] through [Size()] and what [io.ReadFull] delivers
    for a buffer of [n] bytes at the current position. *)
Record SectionReader : Type := {
  sr_Size : Z;
  sr_pos : Z;
  sr_ReadFull : Z -> Z -> list byte * option error
}.

Definition sr_advance (sr : SectionReader) (n : Z) : SectionReader :=
  {| sr_Size := sr_Size sr; sr_pos := sr_pos sr + n; sr_ReadFull := sr_ReadFull sr |}.

Inductive eoutcome : Type :=
| EReturned (err : option error)
| EPanicked
| EOutOfFuel.

Section Prefetch.
Context {C : Type} `{BlobCache C}.
Variable sha256hex : string -> string.
(** [gzip.NewReader] followed by [tar.NewReader] over the given bytes. *)
Variable gunzip : list byte -> TarReader + error.

Record Reader : Type := {
  gr_r : StargzReader;
  gr_cache : C;
  prefetchInProgress : bool
}.

(** What the chunk loop of [CacheTarGzWithReader] holds between two
    iterations. *)
Record cstate : Type := {
  c_nr : Z;
  c_tr : TarReader;
  c_cache : C
}.

Inductive citer_result : Type :=
| CNext (st : cstate)
| CBreak
| CReturn (err : error) (st : cstate)
| CPanic (st : cstate).

(** The body of [for nr < h.Size]. *)
Definition chunk_iter (sr : StargzReader) (h : tarEntry) (fe : TOCEntry)
    (st : cstate) : citer_result :=
  match r_ChunkEntryForOffset sr (h_Name h) (c_nr st) with
  | None => CBreak
  | Some ce =>
    let id := genID sha256hex (Digest fe) (ChunkOffset ce) (ChunkSize ce) in
    match probe (c_cache st) id ce with
    | Some _ =>
      CNext {| c_nr := add64 (c_nr st) (ChunkSize ce);
               c_tr := c_tr st; c_cache := c_cache st |}
    | None =>
      if bool_decide (c_nr st <> ChunkOffset ce)
      then CReturn (Errorf "invalid offset %d != %d"
                      [FInt (c_nr st); FInt (ChunkOffset ce)]) st
      else if bool_decide (ChunkSize ce < 0) then CPanic st
      else
        let '(data, err, tr') := tar_ReadFull (c_tr st) (make (ChunkSize ce)) in
        let added := {| c_nr := add64 (c_nr st) (ChunkSize ce);
                        c_tr := tr';
                        c_cache := Add (c_cache st) id data |} in
        match err with
        | Some e =>
          if is_EOF e then CNext added
          else CReturn e {| c_nr := c_nr st; c_tr := tr'; c_cache := c_cache st |}
        | None => CNext added
        end
    end
  end.

Fixpoint chunk_loop (fuel : nat) (sr : StargzReader) (h : tarEntry) (fe : TOCEntry)
    (st : cstate) : eoutcome * cstate :=
  match fuel with
  | O => (EOutOfFuel, st)
  | S fuel' =>
    if bool_decide (c_nr st < h_Size h) then
      match chunk_iter sr h fe st with
      | CNext st' => chunk_loop fuel' sr h fe st'
      | CBreak => (EReturned None, st)
      | CReturn e st' => (EReturned (Some e), st')
      | CPanic st' => (EPanicked, st')
      end
    else (EReturned None, st)
  end.

(** The loop over the headers of the archive. *)
Fixpoint entry_loop (fuel : nat) (sr : StargzReader) (t : TarReader) (c : C)
  : eoutcome * C :=
  match fuel with
  | O => (EOutOfFuel, c)
  | S fuel' =>
    match tar_Next t with
    | inr e => if is_EOF e then (EReturned None, c) else (EReturned (Some e), c)
    | inl (h, t') =>
      if bool_decide (h_Name h = PrefetchLandmark \/
                      h_Name h = NoPrefetchLandmark \/
                      h_Name h = TOCTarName)
      then entry_loop fuel' sr t' c
      else
        match r_Lookup sr (trim_slash (h_Name h)) with
        | None =>
          (EReturned (Some (Errorf "failed to get TOCEntry of %q" [FStr (h_Name h)])), c)
        | Some fe =>
          match chunk_loop fuel' sr h fe {| c_nr := 0; c_tr := t'; c_cache := c |} with
          | (EReturned None, st) => entry_loop fuel' sr (c_tr st) (c_cache st)
          | (o, st) => (o, c_cache st)
          end
        end
    end
  end.

(** [func (gr *Reader) CacheTarGzWithReader(r io.Reader) error] *)
Definition CacheTarGzWithReader (fuel : nat) (gr : Reader) (bytes : list byte)
  : eoutcome * Reader :=
  match gunzip bytes with
  | inr e => (EReturned (Some e), gr)
  | inl tr =>
    let '(o, c) := entry_loop fuel (gr_r gr) tr (gr_cache gr) in
    (o, {| gr_r := gr_r gr; gr_cache := c;
           prefetchInProgress := prefetchInProgress gr |})
  end.

(** The part of [PrefetchWithReader] below the landmark tests: fetch
    [prefetchSize] bytes at once and hand them to the cache walker. *)
Definition fetch_and_cache (fuel : nat) (gr : Reader) (sr : SectionReader)
    (prefetchSize : Z) : eoutcome * Reader * SectionReader :=
  if bool_decide (prefetchSize < 0) then (EPanicked, gr, sr)
  else
    let prefetchBytes := make prefetchSize in
    let '(delivered, err) := sr_ReadFull sr (sr_pos sr) (len prefetchBytes) in
    let sr' := sr_advance sr (len delivered) in
    let prefetchBytes := fill prefetchBytes delivered in
    let failed := match err with Some e => negb (is_EOF e) | None => false end in
    if failed
    then (EReturned (Wrap err "failed to prefetch layer data"), gr, sr')
    else
      match CacheTarGzWithReader fuel gr prefetchBytes with
      | (EReturned err, gr') =>
        let expected :=
          match err with
          | Some e => is_EOF e || is_ErrUnexpectedEOF e
          | None => false
          end in
        if expected then (EReturned None, gr', sr')
        else (EReturned (Wrap err "error occurred during caching"), gr', sr')
      | (o, gr') => (o, gr', sr')
      end.

(** The deferred function: clear the flag (and wake the waiters). *)
Definition prefetch_done (res : eoutcome * Reader * SectionReader)
  : eoutcome * Reader * SectionReader :=
  let '(o, gr, sr) := res in
  (o, {| gr_r := gr_r gr; gr_cache := gr_cache gr; prefetchInProgress := false |}, sr).

(** [func (gr *Reader) PrefetchWithReader(sr *io.SectionReader, prefetchSize int64) error] *)
Definition PrefetchWithReader (fuel : nat) (gr : Reader) (sr : SectionReader)
    (prefetchSize : Z) : eoutcome * Reader * SectionReader :=
  let gr := {| gr_r := gr_r gr; gr_cache := gr_cache gr; prefetchInProgress := true |} in
  prefetch_done
    match r_Lookup (gr_r gr) NoPrefetchLandmark with
    | Some _ => (EReturned None, gr, sr)
    | None =>
      match r_Lookup (gr_r gr) PrefetchLandmark with
      | Some e =>
        if bool_decide (Offset e > sr_Size sr)
        then (EReturned (Some (Errorf
                "invalid landmark offset %d is larger than layer size %d"
                [FInt (Offset e); FInt (sr_Size sr)])), gr, sr)
        else fetch_and_cache fuel gr sr (Offset e)
      | None =>
        if bool_decide (prefetchSize > sr_Size sr)
        then fetch_and_cache fuel gr sr (sr_Size sr)
        else fetch_and_cache fuel gr sr prefetchSize
      end
    end.

(** *** Vocabulary of the statements about the prefetcher *)

(** The reader with its flag set to [flag]. *)
Definition in_progress (gr : Reader) (flag : bool) : Reader :=
  {| gr_r := gr_r gr; gr_cache := gr_cache gr; prefetchInProgress := flag |}.

(** The state after [k] complete iterations of the chunk loop. *)
Fixpoint chunk_after (k : nat) (sr : StargzReader) (h : tarEntry) (fe : TOCEntry)
    (st : cstate) : option cstate :=
  match k with
  | O => Some st
  | S k' =>
    if bool_decide (c_nr st < h_Size h) then
      match chunk_iter sr h fe st with
      | CNext st' => chunk_after k' sr h fe st'
      | _ => None
      end
    else None
  end.


End Prefetch.

End Reader.

(** ** package remote *)
Module Remote.
Import Go.

Definition defaultChunkSize : Z := 50000.
(** [time.Second], in nanoseconds. *)
Definition Second : Z := 1000000000.
Definition defaultValidInterval : Z := 60 * Second.

Record MirrorConfig : Type := {
  Host : string;
  Insecure : bool
}.

Record ResolverConfig : Type := {
  Mirrors : list MirrorConfig
}.

Record BlobConfig : Type := {
  ValidInterval : Z;
  CheckAlways : bool;
  ChunkSize : Z
}.

(** [type region struct{ b, e int64 }] *)
Record region : Type := {
  b : Z;
  e : Z
}.

#[export] Instance region_eq_dec : EqDecision region.
Proof. solve_decision. Defined.

#[export] Instance region_countable : Countable region :=
  inj_countable' (fun reg => (b reg, e reg)) (fun be => {| b := be.1; e := be.2 |})
    (fun reg => match reg with {| b := _; e := _ |} => eq_refl end).

(** Modelled from the spec: [region.size()], which lives in the blob file
    of the package; the size of the inclusive interval is [e - b + 1]. *)
Definition size (reg : region) : Z := add64 (sub64 (e reg) (b reg)) 1.

(** *** Go's library *)

Definition digit_of (a : ascii) : option Z :=
  let n := Z.of_nat (nat_of_ascii a) in
  if bool_decide (48 <= n <= 57) then Some (n - 48) else None.

Fixpoint digits (s : string) (acc : Z) : option Z :=
  match s with
  | EmptyString => Some acc
  | String a s' =>
    match digit_of a with
    | Some d => digits s' (10 * acc + d)
    | None => None
    end
  end.

Definition ErrSyntax : error := Foreign "strconv.ParseInt: invalid syntax".
Definition ErrRange : error := Foreign "strconv.ParseInt: value out of range".

(** [strconv.ParseInt(s, 10, 64)]. *)
Definition ParseInt (s : string) : Z * option error :=
  let '(neg, body) :=
    match s with
    | String a s' =>
      if Ascii.eqb a "+"%char then (false, s')
      else if Ascii.eqb a "-"%char then (true, s')
      else (false, s)
    | EmptyString => (false, s)
    end in
  match body with
  | EmptyString => (0, Some ErrSyntax)
  | _ =>
    match digits body 0 with
    | None => (0, Some ErrSyntax)
    | Some un =>
      if negb neg && bool_decide (2 ^ 63 <= un) then (2 ^ 63 - 1, Some ErrRange)
      else if neg && bool_decide (2 ^ 63 < un) then (- 2 ^ 63, Some ErrRange)
      else (if neg then - un else un, None)
    end
  end.

Definition Headers : Type := list (string * string).

(** [Header.Get] *)
Definition Header_Get (h : Headers) (key : string) : string :=
  match list_find (fun kv => kv.1 = key) h with
  | Some (_, kv) => kv.2
  | None => EmptyString
  end.

(** [Header.Add] (and [Header.Set] on a key that is not there yet). *)
Definition Header_Add (h : Headers) (key value : string) : Headers :=
  h ++ [(key, value)].

Inductive context : Type :=
| WithTimeout (seconds : Z)          (* context.WithTimeout(context.Background(), _) *)
| CallerCtx (id : string).

Record Request : Type := {
  Method : string;
  URL : string;
  Header : Headers;
  Ctx : context;
  Close : bool
}.

(** [*http.Response]; [Body] and [BodyErr] are what [ioutil.ReadAll]
    answers on the body. *)
Record Response : Type := {
  StatusCode : Z;
  Status : string;
  RespHeader : Headers;
  Body : list byte;
  BodyErr : option error
}.

(** One part of a multipart body. *)
Record Part : Type := {
  Content_Range : string;
  PartBody : list byte;
  PartErr : option error
}.

(** [name.Reference] of go-containerregistry, through the accessors the
    package calls. *)
Record Reference : Type := {
  ref_Name : string;
  ref_String : string;
  ref_Scheme : string;
  ref_RegistryStr : string;
  ref_RepositoryStr : string
}.

(** [reference.Named] of containerd, through [docker.Domain] and
    [docker.Path]. *)
Record Named : Type := {
  Domain : string;
  Path : string
}.

(** What lies outside the package: the network behind a round tripper
    and the parsers of the libraries. *)
Record Env (World RoundTripper : Type) : Type := {
  RoundTrip : RoundTripper -> Request -> World -> (Response + error) * World;
  (** the error of [http.NewRequest(method, url, nil)] *)
  NewRequest : string -> string -> option error;
  ParseDockerRef : string -> Named + error;
  (** [name.ParseReference(s, opts...)]; the flag tells whether
      [name.Insecure] is among the options *)
  ParseReference : string -> bool -> Reference + error;
  (** [keychain.Resolve] then [transport.New], raced against the ten
      second timer: [None] when the timer wins *)
  keychain_Resolve : Reference -> option error;
  transport_New : Reference -> World -> option (RoundTripper + error) * World;
  (** [mime.ParseMediaType]: media type, parameters, error *)
  ParseMediaType : string -> string * (string -> string) * option error;
  (** [multipart.NewReader(body, boundary)]: the parts [NextPart] yields
      and the error it answers after the last *)
  multipart_NewReader : list byte -> string -> list Part * error;
  (** [contentRangeRegexp.FindStringSubmatch] *)
  contentRange_submatch : string -> list string
}.
Arguments RoundTrip {World RoundTripper}.
Arguments NewRequest {World RoundTripper}.
Arguments ParseDockerRef {World RoundTripper}.
Arguments ParseReference {World RoundTripper}.
Arguments keychain_Resolve {World RoundTripper}.
Arguments transport_New {World RoundTripper}.
Arguments ParseMediaType {World RoundTripper}.
Arguments multipart_NewReader {World RoundTripper}.
Arguments contentRange_submatch {World RoundTripper}.

Section Resolver.
Context {World RoundTripper : Type}.
Variable env : Env World RoundTripper.
Variable config : gmap string ResolverConfig.

(** The mutable part of [Resolver], with the world its transports
    talk to. *)
Record RState : Type := {
  world : World;
  trPool : gmap string RoundTripper
}.

Definition M (A : Type) : Type := RState -> A * RState.
#[local] Instance M_ret : MRet M := fun A a s => (a, s).
#[local] Instance M_bind : MBind M :=
  fun A B k m s => let '(a, s') := m s in k a s'.

Definition pool : M (gmap string RoundTripper) := fun s => (trPool s, s).
Definition pool_store (key : string) (tr : RoundTripper) : M unit :=
  fun s => (tt, {| world := world s; trPool := <[key := tr]> (trPool s) |}).
Definition round_trip (tr : RoundTripper) (req : Request) : M (Response + error) :=
  fun s => let '(res, w) := RoundTrip env tr req (world s) in
           (res, {| world := w; trPool := trPool s |}).

Record fetcher : Type := {
  f_ref : string;
  f_digest : string;
  f_nref : option Reference;
  f_url : string;
  f_tr : option RoundTripper
}.

(** [func redirect(endpointURL string, tr http.RoundTripper) (url string, err error)] *)
Definition redirect (endpointURL : string) (tr : RoundTripper)
  : M (string * option error) :=
  match NewRequest env "GET" endpointURL with
  | Some err =>
    mret (EmptyString,
          Wrapf (Some err) "failed to request to the registry of %q" [FStr endpointURL])
  | None =>
    let req := {| Method := "GET"; URL := endpointURL;
                  Header := [("Range", "bytes=0-1")];
                  Ctx := WithTimeout 10; Close := false |} in
    res ← round_trip tr req;
    match res with
    | inr err =>
      mret (EmptyString, Wrapf (Some err) "failed to request to %q" [FStr endpointURL])
    | inl res =>
      if bool_decide (StatusCode res `quot` 100 = 2) then mret (endpointURL, None)
      else
        let redir := Header_Get (RespHeader res) "Location" in
        if bool_decide (redir <> EmptyString) && bool_decide (StatusCode res `quot` 100 = 3)
        then mret (redir, None)
        else mret (EmptyString,
                   Some (Errorf "failed to access to %q with code %v"
                           [FStr endpointURL; FInt (StatusCode res)]))
    end
  end.

(** [func getSize(url string, tr http.RoundTripper) (int64, error)] *)
Definition getSize (url : string) (tr : RoundTripper) : M (Z * option error) :=
  match NewRequest env "HEAD" url with
  | Some err => mret (0, Some err)
  | None =>
    let req := {| Method := "HEAD"; URL := url; Header := [];
                  Ctx := WithTimeout 10; Close := false |} in
    res ← round_trip tr req;
    match res with
    | inr err => mret (0, Some err)
    | inl res =>
      if bool_decide (StatusCode res <> 200)
      then mret (0, Some (Errorf "failed HEAD request with code %v"
                            [FInt (StatusCode res)]))
      else mret (ParseInt (Header_Get (RespHeader res) "Content-Length"))
    end
  end.

(** [func authnTransport(ref, tr, keychain) (http.RoundTripper, error)] *)
Definition authnTransport (ref : Reference) : M (RoundTripper + error) :=
  match keychain_Resolve env ref with
  | Some err =>
    mret (inr (Wrapped err "failed to resolve the reference %q" [FStr (ref_String ref)]))
  | None =>
    fun s =>
      let '(raced, w) := transport_New env ref (world s) in
      (match raced with
       | Some res => res
       | None => inr (Errorf "authentication timeout" [])
       end, {| world := w; trPool := trPool s |})
  end.

(** [func (r *Resolver) resolveReference(ref name.Reference, digest string) (string, error)] *)
Definition resolveReference (ref : Reference) (digest : string)
  : M (string * option error) :=
  let endpointURL :=
    ref_Scheme ref +:+ "://" +:+ ref_RegistryStr ref +:+ "/v2/" +:+
    ref_RepositoryStr ref +:+ "/blobs/" +:+ digest in
  trs ← pool;
  cached ← match trs !! ref_Name ref with
           | Some tr =>
             '(url, err) ← redirect endpointURL tr;
             mret (match err with None => Some url | Some _ => None end)
           | None => mret None
           end;
  match cached with
  | Some url => mret (url, None)
  | None =>
    tr ← authnTransport ref;
    match tr with
    | inr err => mret (EmptyString, Some err)
    | inl tr =>
      '(url, err) ← redirect endpointURL tr;
      match err with
      | Some _ => mret (EmptyString, err)
      | None => _ ← pool_store (ref_Name ref) tr; mret (url, None)
      end
    end
  end.

(** The variables of [resolve] that its loop assigns. *)
Record vars : Type := {
  nref : option Reference;
  url : string;
  tr : option RoundTripper;
  sz : Z;
  rErr : option error
}.

(** [append(r.config[docker.Domain(named)].Mirrors, MirrorConfig{Host: docker.Domain(named)})] *)
Definition hosts_of (named : Named) : list MirrorConfig :=
  match config !! Domain named with
  | Some c => Mirrors c
  | None => []
  end ++ [{| Host := Domain named; Insecure := false |}].

(** The body of [for _, h := range hosts]; the flag is true when the
    body leaves the loop by [break]. *)
Definition try_host (named : Named) (digest : string) (h : MirrorConfig) (v : vars)
  : M (vars * bool) :=
  if bool_decide (Host h = EmptyString) || contains_slash (Host h) then
    mret ({| nref := nref v; url := url v; tr := tr v; sz := sz v;
             rErr := Wrapf (rErr v) "host %q: mirror must be a domain name"
                       [FStr (Host h)] |}, false)
  else
    let sref := Host h +:+ "/" +:+ Path named in
    match ParseReference env sref (Insecure h) with
    | inr err =>
      mret ({| nref := None; url := url v; tr := tr v; sz := sz v;
               rErr := Wrapf (rErr v) "host %q: failed to parse ref %q (%q): %v"
                         [FStr (Host h); FStr sref; FStr digest; FErr err] |}, false)
    | inl nr =>
      '(u, err) ← resolveReference nr digest;
      match err with
      | Some err =>
        mret ({| nref := Some nr; url := u; tr := tr v; sz := sz v;
                 rErr := Wrapf (rErr v) "host %q: failed to resolve ref %q (%q): %v"
                           [FStr (Host h); FStr (ref_String nr); FStr digest; FErr err] |},
              false)
      | None =>
        trs ← pool;
        match trs !! ref_Name nr with
        | None =>
          mret ({| nref := Some nr; url := u; tr := None; sz := sz v;
                   rErr := Wrapf (rErr v) "host %q: transport %q not found in pool"
                             [FStr (Host h); FStr (ref_Name nr)] |}, false)
        | Some t =>
          '(n, err) ← getSize u t;
          match err with
          | Some err =>
            mret ({| nref := Some nr; url := u; tr := Some t; sz := n;
                     rErr := Wrapf (rErr v) "host %q: failed to get size of %q: %v"
                               [FStr (Host h); FStr u; FErr err] |}, false)
          | None =>
            mret ({| nref := Some nr; url := u; tr := Some t; sz := n;
                     rErr := None |}, true)
          end
        end
      end
    end.

Fixpoint try_hosts (named : Named) (digest : string) (hosts : list MirrorConfig)
    (v : vars) : M vars :=
  match hosts with
  | [] => mret v
  | h :: hosts' =>
    '(v', stop) ← try_host named digest h v;
    if stop : bool then mret v' else try_hosts named digest hosts' v'
  end.

(** [func (r *Resolver) resolve(ref, digest string)], answering the fetcher, the size and the error. *)
Definition resolve (ref digest : string) : M (option fetcher * Z * option error) :=
  match ParseDockerRef env ref with
  | inr err => mret (None, 0, Some err)
  | inl named =>
    let hosts := hosts_of named in
    v ← try_hosts named digest hosts
          {| nref := None; url := EmptyString; tr := None; sz := 0;
             rErr := Some (Errorf "failed to resolve" []) |};
    match rErr v with
    | Some _ =>
      mret (None, 0, Wrapf (rErr v) "cannot resolve ref %q (%q)" [FStr ref; FStr digest])
    | None =>
      mret (Some {| f_ref := ref; f_digest := digest; f_nref := nref v;
                    f_url := url v; f_tr := tr v |}, sz v, None)
    end
  end.

(** [func (f *fetcher) refresh()] *)
Definition refresh (f : fetcher) : M (option fetcher * Z * option error) :=
  resolve (f_ref f) (f_digest f).

(** [type blob struct], as [Resolve] fills it. *)
Record blob : Type := {
  b_fetcher : option fetcher;
  b_size : Z;
  b_chunkSize : Z;
  b_lastCheck : Z;
  b_checkInterval : Z
}.

(** A value of the interface [Blob]. *)
Inductive Blob : Type :=
| PtrBlob (bl : blob)          (* a [*blob] *)
| OtherBlob.

(** [func (r *Resolver) Resolve(ref, digest string, cache cache.BlobCache, config BlobConfig) (Blob, error)];
    [now] is [time.Now()]. *)
Definition Resolve (now : Z) (ref digest : string) (bc : BlobConfig)
  : M (option Blob * option error) :=
  '(f, n, err) ← resolve ref digest;
  match err with
  | Some _ => mret (None, err)
  | None =>
    let chunkSize := ChunkSize bc in
    let chunkSize := if bool_decide (chunkSize = 0) then defaultChunkSize else chunkSize in
    let checkInterval :=
      if bool_decide (ValidInterval bc = 0) then defaultValidInterval
      else wrap64 (ValidInterval bc * Second) in
    let checkInterval := if CheckAlways bc then 0 else checkInterval in
    mret (Some (PtrBlob {| b_fetcher := f; b_size := n; b_chunkSize := chunkSize;
                           b_lastCheck := now; b_checkInterval := checkInterval |}),
          None)
  end.

Inductive refresh_result : Type :=
| Refreshed (target : Blob) (err : option error)
| RefreshPanicked.

(** [func (r *Resolver) Refresh(target Blob) error]; the blob is the one
    [target] points to, as the call leaves it. *)
Definition Refresh (now : Z) (target : Blob) : M refresh_result :=
  match target with
  | OtherBlob =>
    mret (Refreshed target (Some (Errorf "invalid type of blob. must be *blob" [])))
  | PtrBlob bl =>
    match b_fetcher bl with
    | None => mret RefreshPanicked
    | Some f =>
      '(new, newSize, err) ← refresh f;
      match err with
      | Some _ => mret (Refreshed target err)
      | None =>
        if bool_decide (newSize <> b_size bl)
        then mret (Refreshed target
                     (Some (Errorf "Invalid size of new blob %d; want %d"
                              [FInt newSize; FInt (b_size bl)])))
        else mret (Refreshed
                     (PtrBlob {| b_fetcher := new; b_size := b_size bl;
                                 b_chunkSize := b_chunkSize bl;
                                 b_lastCheck := now;
                                 b_checkInterval := b_checkInterval bl |})
                     None)
      end
    end
  end.

(** *** Vocabulary of the statements about [resolve] *)

Definition valid_host (h : MirrorConfig) : Prop :=
  Host h <> EmptyString /\ contains_slash (Host h) = false.

(** From state [s], reference parsing, redirect resolution and size
    probing all succeed for host [h]; [t] is the transport the pool
    holds for the reference. *)
Definition host_succeeds (named : Named) (digest : string) (h : MirrorConfig)
    (s : RState) (nr : Reference) (u : string) (t : RoundTripper) (n : Z)
    (s' : RState) : Prop :=
  valid_host h /\
  ParseReference env (Host h +:+ "/" +:+ Path named) (Insecure h) = inl nr /\
  exists s1,
    resolveReference nr digest s = ((u, None), s1) /\
    trPool s1 !! ref_Name nr = Some t /\
    getSize u t s1 = ((n, None), s').

(** From state [s], host [h] is skipped, or one of the three steps fails
    for it. *)
Definition host_fails (named : Named) (digest : string) (h : MirrorConfig)
    (s s' : RState) : Prop :=
  (~ valid_host h /\ s' = s) \/
  (valid_host h /\
   match ParseReference env (Host h +:+ "/" +:+ Path named) (Insecure h) with
   | inr _ => s' = s
   | inl nr =>
     exists u err s1,
       resolveReference nr digest s = ((u, err), s1) /\
       match err with
       | Some _ => s' = s1
       | None =>
         exists t n err',
           trPool s1 !! ref_Name nr = Some t /\
           getSize u t s1 = ((n, Some err'), s')
       end
   end).

(** The first host of the list that succeeds, hosts being tried in
    order, each from the state its predecessors left. *)
Inductive first_success (named : Named) (digest : string)
  : list MirrorConfig -> RState ->
    option (Reference * string * RoundTripper * Z) -> RState -> Prop :=
| fs_none s : first_success named digest [] s None s
| fs_win h hs s nr u t n s' :
    host_succeeds named digest h s nr u t n s' ->
    first_success named digest (h :: hs) s (Some (nr, u, t, n)) s'
| fs_skip h hs s s1 res s' :
    host_fails named digest h s s1 ->
    first_success named digest hs s1 res s' ->
    first_success named digest (h :: hs) s res s'.

End Resolver.

(** The context an error chain accumulated: format and arguments of each
    wrapper, outermost first. *)
Fixpoint contexts (err : error) : list (string * list fmtarg) :=
  match err with
  | Wrapped cause format args => (format, args) :: contexts cause
  | _ => []
  end.

(** The host a per-host context names: its first argument. *)
Definition context_host (ctx : string * list fmtarg) : string :=
  match ctx.2 with
  | FStr h :: _ => h
  | _ => EmptyString
  end.

Section Fetch.
Context {World RoundTripper : Type}.
Variable env : Env World RoundTripper.

Record options : Type := {
  opt_ctx : option context;
  opt_tr : option RoundTripper
}.

Definition Option : Type := options -> options.

Definition WithContext (ctx : context) : Option :=
  fun opts => {| opt_ctx := Some ctx; opt_tr := opt_tr opts |}.

Definition WithRoundTripper (tr : RoundTripper) : Option :=
  fun opts => {| opt_ctx := opt_ctx opts; opt_tr := Some tr |}.

(** [for _, o := range opts { o(&opt) }] on [opt = options{}] *)
Definition apply_options (opts : list Option) : options :=
  fold_left (fun opt o => o opt) opts {| opt_ctx := None; opt_tr := None |}.

(** [func parseRange(header string) (region, error)] *)
Definition parseRange (header : string) : region * option error :=
  let submatches := contentRange_submatch env header in
  if bool_decide (length submatches < 4)%nat
  then ({| b := 0; e := 0 |},
        Some (Errorf "Content-Range %q doesn't have enough information" [FStr header]))
  else
    let m1 := default EmptyString (submatches !! 1%nat) in
    let m2 := default EmptyString (submatches !! 2%nat) in
    let '(begin, err) := ParseInt m1 in
    match err with
    | Some _ =>
      ({| b := 0; e := 0 |}, Wrapf err "failed to parse beginning offset %q" [FStr m1])
    | None =>
      let '(end_, err) := ParseInt m2 in
      match err with
      | Some _ =>
        ({| b := 0; e := 0 |}, Wrapf err "failed to parse end offset %q" [FStr m2])
      | None => ({| b := begin; e := end_ |}, None)
      end
    end.

(** A region as the [Range] header spells it: [%d-%d]. *)
Definition render (reg : region) : string :=
  fmt_d (b reg) +:+ "-" +:+ fmt_d (e reg).

(** The value given to the [Range] header: the loop over [requests],
    then [ranges[:len(ranges)-1]]. *)
Definition range_header (requests : list region) : string :=
  let ranges :=
    fold_left (fun ranges reg => ranges +:+ (fmt_d (b reg) +:+ "-" +:+ fmt_d (e reg) +:+ ","))
              requests "bytes=0-0," in
  String.substring 0 (String.length ranges - 1) ranges.

(** The request [fetch] builds. *)
Definition fetch_request (url : string) (ctx : context) (requests : list region)
  : Request :=
  {| Method := "GET"; URL := url;
     Header := Header_Add (Header_Add [] "Range" (range_header requests))
                          "Accept-Encoding" "identity";
     Ctx := ctx; Close := false |}.

(** The loop over the parts that follow the dummy one. *)
Fixpoint read_parts (url : string) (parts : list Part) (last : error)
    (remoteData : gmap region (list byte))
  : option (gmap region (list byte)) * option error :=
  match parts with
  | [] =>
    if is_EOF last then (Some remoteData, None)
    else (None, Wrapf (Some last) "failed to read multipart response from %q" [FStr url])
  | part :: parts' =>
    let '(reg, err) := parseRange (Content_Range part) in
    match err with
    | Some _ => (None, Wrapf err "failed to parse Content-Range in %q" [FStr url])
    | None =>
      let '(data, err) := (PartBody part, PartErr part) in
      match err with
      | Some _ => (None, Wrapf err "failed to read multipart data on %q" [FStr url])
      | None =>
        if bool_decide (len data <> size reg)
        then (None, Wrapf err "broken partial body:got size %d; want %d for %q"
                      [FInt (len data); FInt (size reg); FStr url])
        else read_parts url parts' last (<[reg := data]> remoteData)
      end
    end
  end.

(** What [fetch] does with the response. *)
Definition read_response (url : string) (res : Response)
    (remoteData : gmap region (list byte))
  : option (gmap region (list byte)) * option error :=
  if bool_decide (StatusCode res <> 200) && bool_decide (StatusCode res <> 206)
  then (None, Some (Errorf "unexpected status code on %q: %v"
                      [FStr url; FStr (Status res)]))
  else if bool_decide (StatusCode res = 200) then
    let '(data, err) := (Body res, BodyErr res) in
    match err with
    | Some _ => (None, Wrapf err "Failed to read response body from %q" [FStr url])
    | None =>
      let '(size, err) := ParseInt (Header_Get (RespHeader res) "Content-Length") in
      match err with
      | Some _ => (None, Wrapf err "failed to parse Content-Length for %q" [FStr url])
      | None =>
        if bool_decide (len data <> size)
        then (None, Wrapf err "broken response body:got size %d; want %d for %q"
                      [FInt (len data); FInt size; FStr url])
        else (Some (<[ {| b := 0; e := sub64 size 1 |} := data ]> remoteData), None)
      end
    end
  else
    let '(mediaType, params, err) :=
      ParseMediaType env (Header_Get (RespHeader res) "Content-Type") in
    if bool_decide (err <> None) || negb (String.prefix "multipart/" mediaType)
    then (None, Wrapf err "invalid media type %q for %q" [FStr mediaType; FStr url])
    else
      let '(parts, last) := multipart_NewReader env (Body res) (params "boundary") in
      read_parts url (tail parts) last remoteData.

Inductive fetch_result : Type :=
| Fetched (data : option (gmap region (list byte))) (err : option error)
| FetchPanicked.

(** [func (f *fetcher) fetch(requests []region, opts ...Option) (map[region][]byte, error)] *)
Definition fetch (f : fetcher) (requests : list region) (opts : list Option)
    (w : World) : fetch_result * World :=
  let remoteData : gmap region (list byte) := ∅ in
  let opt := apply_options opts in
  let ctx := match opt_ctx opt with Some c => c | None => WithTimeout 30 end in
  let tr := match opt_tr opt with Some t => Some t | None => f_tr f end in
  match NewRequest env "GET" (f_url f) with
  | Some err => (Fetched None (Some err), w)
  | None =>
    let req := fetch_request (f_url f) ctx requests in
    match tr with
    | None => (FetchPanicked, w)
    | Some tr =>
      let '(res, w') := RoundTrip env tr req w in
      match res with
      | inr err =>
        (Fetched None (Wrapf (Some err) "failed to request to %q" [FStr (f_url f)]), w')
      | inl res =>
        let '(data, err) := read_response (f_url f) res remoteData in
        (Fetched data err, w')
      end
    end
  end.

End Fetch.

End Remote.

(** ** Concrete layers, caches and networks *)
Module Fixtures.
Import Go Reader.

(** A file [b] of eight bytes in two chunks of four. Below offset 0 the
    table of contents answers the first chunk, past the end none. *)
Definition chunk_b0 : TOCEntry :=
  {| Name := "b"; Digest := "sha256:b"; Offset := 100; ChunkOffset := 0; ChunkSize := 4 |}.
Definition chunk_b1 : TOCEntry :=
  {| Name := "b"; Digest := "sha256:b"; Offset := 180; ChunkOffset := 4; ChunkSize := 4 |}.

Definition toc_b : StargzReader :=
  {| r_Lookup n := if String.eqb n "b" then Some chunk_b0 else None;
     r_ChunkEntryForOffset n off :=
       if String.eqb n "b" then
         if bool_decide (off < 4) then Some chunk_b0
         else if bool_decide (off < 8) then Some chunk_b1
         else None
       else None |}.

Definition bytes_b : list byte := [x61; x62; x63; x64; x65; x66; x67; x68].

(** A reader over bytes held in memory. *)
Definition mem_reader (bytes : list byte) : ReaderAt :=
  fun n off =>
    if bool_decide (off < 0) then ([], Some (Foreign "negative offset"))
    else
      let d := take (Z.to_nat n) (drop (Z.to_nat off) bytes) in
      (d, if bool_decide (len d < n) then Some EOF else None).


(** A stand-in for the hash: the text that would be hashed. *)
Definition plain_id : string -> string := fun s => s.

Definition file_b : file :=
  {| name := "b"; digest := "sha256:b"; ra := mem_reader bytes_b; r := toc_b |}.


Definition id_b0 : string := genID plain_id "sha256:b" 0 4.
Definition id_b1 : string := genID plain_id "sha256:b" 4 4.

Definition empty_cache : gmap string (list byte) := ∅.
Definition warm_cache : gmap string (list byte) := {[ id_b1 := [x65; x66; x67; x68] ]}.

(** The layer of [b] as a tar stream of one entry. *)
Definition entry_b : tarEntry :=
  {| h_Name := "b"; h_Size := 8; content := bytes_b |}.

Definition tar_b : TarReader :=
  {| cur := []; cur_short := false; pending := [entry_b]; tail_err := EOF |}.

(** The tar reader once [Next] has answered the header of [b]. *)
Definition tar_at_b : TarReader :=
  {| cur := bytes_b; cur_short := false; pending := []; tail_err := EOF |}.

(** A cache that holds the first chunk of [b] only. *)
Definition half_cache : gmap string (list byte) := {[ id_b0 := [x61; x62; x63; x64] ]}.

(** Tables of contents with a landmark. *)
Definition landmark (n : string) (off : Z) : TOCEntry :=
  {| Name := n; Digest := ""; Offset := off; ChunkOffset := 0; ChunkSize := 0 |}.

Definition toc_no_prefetch : StargzReader :=
  {| r_Lookup n :=
       if String.eqb n NoPrefetchLandmark then Some (landmark n 300) else r_Lookup toc_b n;
     r_ChunkEntryForOffset := r_ChunkEntryForOffset toc_b |}.

Definition toc_prefetch (off : Z) : StargzReader :=
  {| r_Lookup n :=
       if String.eqb n PrefetchLandmark then Some (landmark n off) else r_Lookup toc_b n;
     r_ChunkEntryForOffset := r_ChunkEntryForOffset toc_b |}.

(** A layer of 1000 bytes whose gzip stream does not parse. *)
Definition layer : SectionReader :=
  {| sr_Size := 1000; sr_pos := 0;
     sr_ReadFull pos n := (replicate (Z.to_nat (Z.min n (1000 - pos))) x00,
                           if bool_decide (1000 - pos < n) then Some ErrUnexpectedEOF else None) |}.

Definition no_gzip : list byte -> TarReader + error :=
  fun _ => inr (Foreign "gzip: invalid header").

(** Whatever the bytes, the archive of [b]. *)
Definition gunzip_b : list byte -> TarReader + error := fun _ => inl tar_b.

Definition reader_of (toc : StargzReader) : Reader :=
  {| gr_r := toc; gr_cache := empty_cache; prefetchInProgress := false |}.

End Fixtures.

Module RemoteFixtures.
Import Go Remote.

Fixpoint before_slash (s : string) : string :=
  match s with
  | EmptyString => EmptyString
  | String a s' => if Ascii.eqb a "/"%char then EmptyString else String a (before_slash s')
  end.

Fixpoint after_slash (s : string) : string :=
  match s with
  | EmptyString => EmptyString
  | String a s' => if Ascii.eqb a "/"%char then s' else after_slash s'
  end.

Definition response (code : Z) (status : string) (h : Headers) (body : list byte)
  : Response :=
  {| StatusCode := code; Status := status; RespHeader := h; Body := body; BodyErr := None |}.

(** A network that keeps a log of the requests made. Registries whose
    URL [up] accepts answer 200 with the given [Content-Length] and body;
    the others answer 500. Transports are named after their registry. *)
Definition network (up : string -> bool) (length : string) (body : list byte)
  : Env (list Request) string :=
  {| RoundTrip t req w :=
       (inl (if up (URL req)
             then response 200 "200 OK" [("Content-Length", length)] body
             else response 500 "500 Internal Server Error" [] []),
        w ++ [req]);
     NewRequest _ _ := None;
     ParseDockerRef ref := inl {| Domain := before_slash ref; Path := after_slash ref |};
     ParseReference s insecure :=
       inl {| ref_Name := s; ref_String := s;
              ref_Scheme := if insecure then "http" else "https";
              ref_RegistryStr := before_slash s;
              ref_RepositoryStr := after_slash s |};
     keychain_Resolve _ := None;
     transport_New ref w := (Some (inl (ref_RegistryStr ref)), w);
     ParseMediaType s := (s, fun _ => EmptyString, None);
     multipart_NewReader _ _ := ([], EOF);
     contentRange_submatch _ := [] |}.

Definition only_mirror_b : string -> bool := String.prefix "https://mirror-b/".
Definition all_down : string -> bool := fun _ => false.
Definition all_up : string -> bool := fun _ => true.

(** Mirrors [mirror-a], a malformed entry and [mirror-b] for [d.example]. *)
Definition mirrors : gmap string ResolverConfig :=
  {[ "d.example" :=
       {| Mirrors := [ {| Host := "mirror-a"; Insecure := false |};
                       {| Host := "bad/host"; Insecure := false |};
                       {| Host := "mirror-b"; Insecure := false |} ] |} ]}.

Definition image : string := "d.example/library/app".
Definition layer_digest : string := "sha256:abc".

Definition fresh : @RState (list Request) string := {| world := []; trPool := ∅ |}.

Definition old_fetcher : @fetcher string :=
  {| f_ref := image; f_digest := layer_digest; f_nref := None;
     f_url := "https://mirror-b/v2/library/app/blobs/sha256:abc";
     f_tr := Some "mirror-b" |}.

(** A blob resolved at time 5 when the layer had 1000 bytes. *)
Definition blob_1000 : @blob string :=
  {| b_fetcher := Some old_fetcher; b_size := 1000; b_chunkSize := 50000;
     b_lastCheck := 5; b_checkInterval := 60 * Second |}.

End RemoteFixtures.

(** ** package reader, continued *)
Module ReaderMore.
Import Go Reader.

(** [func (gr *Reader) OpenFile(name string) (io.ReaderAt, error)];
    [open] is [gr.r.OpenFile] of github.com/google/crfs. The file shares
    the reader's cache, which the model passes to [ReadAt] separately. *)
Definition OpenFile (open : string -> ReaderAt + error) (sr : StargzReader)
    (name : string) : option file * option error :=
  match open name with
  | inr err => (None, Some err)
  | inl section =>
    match r_Lookup sr name with
    | None => (None, Some (Errorf "failed to get TOCEntry %q" [FStr name]))
    | Some e =>
      (Some {| name := name; digest := Digest e; ra := section; r := sr |}, None)
    end
  end.

(** *** Vocabulary *)

(** The section reader of the file delivers the bytes of [content]: each
    chunk is served, and its bytes are those of [content] at the chunk's
    offset. *)
Definition backed_by (sf : file) (content : list byte) : Prop :=
  served sf /\
  forall ce, chunk_of sf ce ->
    chunk_bytes sf ce =
      take (Z.to_nat (ChunkSize ce)) (drop (Z.to_nat (ChunkOffset ce)) content).

(** The largest length [make] accepts for a byte slice, the runtime's
    [maxAlloc] on 64-bit Linux; above it [make] panics, which the model
    of [make] leaves out. *)
Definition maxAlloc : Z := 2 ^ 48.

(** Every chunk of the file is of a size that [make] accepts. *)
Definition allocatable (sf : file) : Prop :=
  forall ce, chunk_of sf ce -> ChunkSize ce <= maxAlloc.

(** The same file read through another section reader. *)
Definition with_reader (sf : file) (other : ReaderAt) : file :=
  {| name := name sf; digest := digest sf; ra := other; r := r sf |}.

(** A cache that keeps what is added: the entry just added is found
    under its ID, and the entries under other IDs are as they were. *)
Class KeepingCache (C : Type) `{BlobCache C} : Prop := {
  fetch_added : forall (c : C) id data, Fetch (Add c id data) id = Some data;
  fetch_kept : forall (c : C) id data id',
    id' <> id -> Fetch (Add c id data) id' = Fetch c id'
}.

(** The names [CacheTarGzWithReader] passes over. *)
Definition passed_over (n : string) : Prop :=
  n = PrefetchLandmark \/ n = NoPrefetchLandmark \/ n = TOCTarName.

End ReaderMore.

(** ** package remote, continued *)
Module RemoteMore.
Import Go Remote.

Section Check.
Context {World RoundTripper : Type}.
Variable env : Env World RoundTripper.

Inductive check_result : Type :=
| Checked (err : option error)
| CheckPanicked.

(** [func (f *fetcher) check() error] *)
Definition check (f : fetcher) (w : World) : check_result * World :=
  match NewRequest env "GET" (f_url f) with
  | Some err =>
    (Checked (Wrapf (Some err) "check failed: failed to make request for %q"
                [FStr (f_url f)]), w)
  | None =>
    let req := {| Method := "GET"; URL := f_url f;
                  Header := [("Range", "bytes=0-1")];
                  Ctx := WithTimeout 10; Close := false |} in
    match f_tr f with
    | None => (CheckPanicked, w)
    | Some tr =>
      let '(res, w') := RoundTrip env tr req w in
      match res with
      | inr err =>
        (Checked (Wrapf (Some err) "check failed: failed to request to registry %q"
                    [FStr (f_url f)]), w')
      | inl res =>
        if bool_decide (StatusCode res <> 200) && bool_decide (StatusCode res <> 206)
        then (Checked (Some (Errorf "unexpected status code %v for %q"
                               [FInt (StatusCode res); FStr (f_url f)])), w')
        else (Checked None, w')
      end
    end
  end.

(** *** Vocabulary *)

(** Every entry of the map is as long as its region. *)
Definition sized (m : gmap region (list byte)) : Prop :=
  forall reg data, m !! reg = Some data -> len data = size reg.

(** A part whose [Content-Range] parses and whose body is read without
    an error, [whole] when the body is as long as the range says and
    [short] when it is not. *)
Definition part_read (part : Part) (reg : region) : Prop :=
  parseRange env (Content_Range part) = (reg, None) /\ PartErr part = None.

Definition part_whole (part : Part) : Prop :=
  exists reg, part_read part reg /\ len (PartBody part) = size reg.

Definition part_short (part : Part) : Prop :=
  exists reg, part_read part reg /\ len (PartBody part) <> size reg.

End Check.
End RemoteMore.

Module MoreFixtures.
Import Go Reader Remote Fixtures RemoteFixtures.

(** A section reader that fails on every read, and a layer whose files
    all open onto it. *)
Definition dead_reader : ReaderAt :=
  fun _ _ => ([], Some (Foreign "connection reset")).

Definition open_dead : string -> ReaderAt + error := fun _ => inl dead_reader.

(** The state of the chunk loop once the first chunk of [b] is stored. *)
Definition after_b0 : @cstate (gmap string (list byte)) :=
  {| c_nr := 4;
     c_tr := {| cur := [x65; x66; x67; x68]; cur_short := false;
                pending := []; tail_err := EOF |};
     c_cache := half_cache |}.

(** The start of an archive that holds the landmark and the TOC and
    breaks off after them. *)
Definition tar_landmarks : TarReader :=
  {| cur := []; cur_short := false;
     pending := [ {| h_Name := PrefetchLandmark; h_Size := 1; content := [x00] |};
                  {| h_Name := TOCTarName; h_Size := 2; content := [x7b; x7d] |} ];
     tail_err := ErrUnexpectedEOF |}.

(** A registry that answers every request with 206 and the given parts,
    the first of which is the answer to the dummy range. *)
Definition ranges_network (mediaType : string) (parts : list Part)
  : Env (list Request) string :=
  {| RoundTrip t req w :=
       (inl (response 206 "206 Partial Content" [("Content-Type", mediaType)] []),
        w ++ [req]);
     NewRequest _ _ := None;
     ParseDockerRef ref := inl {| Domain := before_slash ref; Path := after_slash ref |};
     ParseReference s insecure :=
       inl {| ref_Name := s; ref_String := s;
              ref_Scheme := if insecure then "http" else "https";
              ref_RegistryStr := before_slash s;
              ref_RepositoryStr := after_slash s |};
     keychain_Resolve _ := None;
     transport_New ref w := (Some (inl (ref_RegistryStr ref)), w);
     ParseMediaType s := (s, fun _ => "sep"%string, None);
     multipart_NewReader _ _ := (parts, EOF);
     contentRange_submatch h :=
       if String.eqb h "bytes 0-0/100" then [h; "0"; "0"; "100"]
       else if String.eqb h "bytes 10-19/100" then [h; "10"; "19"; "100"]
       else if String.eqb h "bytes 40-49/100" then [h; "40"; "49"; "100"]
       else [] |}.

Definition part_0_0 : Part :=
  {| Content_Range := "bytes 0-0/100"; PartBody := [x00]; PartErr := None |}.
Definition part_10_19 : Part :=
  {| Content_Range := "bytes 10-19/100"; PartBody := replicate 10 x01; PartErr := None |}.
Definition part_40_49 : Part :=
  {| Content_Range := "bytes 40-49/100"; PartBody := replicate 10 x04; PartErr := None |}.
(** The part for 40-49 cut one byte short. *)
Definition part_40_48 : Part :=
  {| Content_Range := "bytes 40-49/100"; PartBody := replicate 9 x04; PartErr := None |}.

(** The fetcher [resolve] makes for the layer on [mirror-b]. *)
Definition new_fetcher : @fetcher string :=
  {| f_ref := image; f_digest := layer_digest;
     f_nref := Some {| ref_Name := "mirror-b/library/app";
                       ref_String := "mirror-b/library/app";
                       ref_Scheme := "https";
                       ref_RegistryStr := "mirror-b";
                       ref_RepositoryStr := "library/app" |};
     f_url := "https://mirror-b/v2/library/app/blobs/sha256:abc";
     f_tr := Some "mirror-b" |}.

Definition ref_mirror_a : Reference :=
  {| ref_Name := "mirror-a/library/app"; ref_String := "mirror-a/library/app";
     ref_Scheme := "https"; ref_RegistryStr := "mirror-a";
     ref_RepositoryStr := "library/app" |}.

Definition two_regions : list region := [ {| b := 10; e := 19 |}; {| b := 40; e := 49 |} ].

End MoreFixtures.

(** * Properties *)

(** ** Properties of package reader *)
Module ReaderProps.
Import Go Reader.

Lemma wrap64_id z : - 2 ^ 63 <= z < 2 ^ 63 -> wrap64 z = z.
Proof. intros Hz. unfold wrap64. rewrite Z.mod_small; lia. Qed.

Lemma len_make n : 0 <= n -> len (make n) = n.
Proof. intros Hn. unfold len, make. rewrite length_replicate. lia. Qed.

Lemma length_fill data delivered : length (fill data delivered) = length data.
Proof.
  unfold fill. rewrite length_take, length_app, length_drop. lia.
Qed.

Lemma len_fill_make n delivered : 0 <= n -> len (fill (make n) delivered) = n.
Proof. intros Hn. unfold len. rewrite length_fill. by apply len_make. Qed.

Lemma copy_length dst src :
  length (copy dst src).1 = length dst /\
  (copy dst src).2 = Z.min (len dst) (len src).
Proof.
  unfold copy, len; simpl. rewrite length_app, length_take, length_drop. lia.
Qed.

Section Loop.
Context {C : Type} `{BlobCache C}.
Variable sha256hex : string -> string.

Abbreviation rstate := (@rstate C).

(** What one successful [copy] does to the state. *)
Lemma copy_chunk_bounds offset ce data (st st' : rstate) n :
  0 <= nr st <= len (p st) ->
  copy_chunk offset ce data st = Next n st' ->
  let i := sub64 (add64 offset (nr st)) (ChunkOffset ce) in
  0 <= i <= len data /\
  n = Z.min (len (p st) - nr st) (len data - i) /\
  nr st' = nr st + n /\
  length (p st') = length (p st) /\
  take (Z.to_nat (nr st)) (p st') = take (Z.to_nat (nr st)) (p st) /\
  drop (Z.to_nat (nr st')) (p st') = drop (Z.to_nat (nr st')) (p st) /\
  cache st' = cache st.
Proof.
  intros Hnr. unfold copy_chunk. cbv zeta.
  set (i := sub64 _ _). case_bool_decide as Hi; [|discriminate].
  destruct (copy _ _) as [dst m] eqn:Hcopy.
  intros [= <- <-]; simpl.
  pose proof (copy_length (drop (Z.to_nat (nr st)) (p st)) (drop (Z.to_nat i) data))
    as [Hlen Hm].
  rewrite Hcopy in Hlen, Hm; simpl in Hlen, Hm.
  unfold len in *. rewrite !length_drop in Hm. rewrite length_drop in Hlen.
  assert (Hm' : m = Z.min (Z.of_nat (length (p st)) - nr st) (Z.of_nat (length data) - i)) by lia.
  split; [done|]. split; [done|]. split; [done|].
  split. { rewrite length_app, length_take, Hlen. lia. }
  split. { rewrite take_app_le by (rewrite length_take; lia).
           rewrite take_take. f_equal. lia. }
  split; [|done].
  unfold copy in Hcopy. injection Hcopy as Hdst Hmn.
  rewrite drop_app_ge by (rewrite length_take; lia).
  rewrite length_take. subst dst.
  replace (Z.to_nat (nr st + m) - Z.to_nat (nr st) `min` length (p st))%nat
    with (Z.to_nat m) by lia.
  set (k := Nat.min _ _) in *.
  assert (Hk : Z.to_nat m = k) by lia.
  rewrite Hk, drop_app_length'. 2:{ rewrite length_take. subst k. rewrite length_drop. lia. }
  rewrite drop_drop. f_equal. lia.
Qed.

(** An iteration that runs to its end copied from a buffer of the
    chunk's size. *)
Lemma ReadAt_iter_Next sf offset (st st' : rstate) n :
  ReadAt_iter sha256hex sf offset st = Next n st' ->
  exists ce data c,
    r_ChunkEntryForOffset (r sf) (name sf) (add64 offset (nr st)) = Some ce /\
    len data = ChunkSize ce /\
    copy_chunk offset ce data {| p := p st; nr := nr st; cache := c |} = Next n st'.
Proof.
  destruct st as [p0 nr0 c0]. unfold ReadAt_iter; simpl.
  destruct (r_ChunkEntryForOffset _ _ _) as [ce|]; [|discriminate].
  unfold probe. destruct (Fetch c0 _) as [data|] eqn:Hf.
  - case_bool_decide as Hlen.
    + intros Hc. by exists ce, data, c0.
    + case_bool_decide as Hneg; [discriminate|].
      destruct (ra sf _ _) as [delivered [e|]].
      * destruct (is_EOF e); [|discriminate].
        intros Hc. eexists ce, _, _. split; [done|]. split; [|exact Hc].
        apply len_fill_make. lia.
      * intros Hc. eexists ce, _, _. split; [done|]. split; [|exact Hc].
        apply len_fill_make. lia.
  - case_bool_decide as Hneg; [discriminate|].
    destruct (ra sf _ _) as [delivered [e|]].
    + destruct (is_EOF e); [|discriminate].
      intros Hc. eexists ce, _, _. split; [done|]. split; [|exact Hc].
      apply len_fill_make. lia.
    + intros Hc. eexists ce, _, _. split; [done|]. split; [|exact Hc].
      apply len_fill_make. lia.
Qed.

(** The only error [ReadAt_iter] returns is the reader's, wrapped, with
    a count of zero and the state of the iteration's start. *)
Lemma ReadAt_iter_Return sf offset (st st' : rstate) n err :
  ReadAt_iter sha256hex sf offset st = Return n err st' ->
  n = 0 /\ st' = st /\
  exists ce e,
    r_ChunkEntryForOffset (r sf) (name sf) (add64 offset (nr st)) = Some ce /\
    (ra sf (len (make (ChunkSize ce))) (ChunkOffset ce)).2 = Some e /\
    is_EOF e = false /\
    err = Some (Wrapped e "failed to read data" []).
Proof.
  unfold ReadAt_iter.
  destruct (r_ChunkEntryForOffset _ _ _) as [ce|]; [|discriminate].
  assert (Hcc : forall data s, copy_chunk offset ce data s <> Return n err st').
  { intros data s. unfold copy_chunk. case_bool_decide; [|discriminate].
    destruct (copy _ _); discriminate. }
  destruct (probe _ _ _) as [data|]; [intros Hc; by apply Hcc in Hc|].
  case_bool_decide; [discriminate|].
  destruct (ra sf _ _) as [delivered [e|]] eqn:Hra; simpl.
  - destruct (is_EOF e) eqn:He; [intros Hc; by apply Hcc in Hc|].
    intros [= <- <- <-]. split; [done|]. split; [done|].
    exists ce, e. by rewrite Hra.
  - intros Hc; by apply Hcc in Hc.
Qed.

Lemma ReadAt_iter_bounds sf offset (st st' : rstate) n :
  0 <= nr st <= len (p st) ->
  ReadAt_iter sha256hex sf offset st = Next n st' ->
  0 <= n /\ nr st' = nr st + n /\ nr st' <= len (p st') /\
  length (p st') = length (p st) /\
  take (Z.to_nat (nr st)) (p st') = take (Z.to_nat (nr st)) (p st) /\
  drop (Z.to_nat (nr st')) (p st') = drop (Z.to_nat (nr st')) (p st).
Proof.
  intros Hnr Hit. apply ReadAt_iter_Next in Hit as (ce & data & c & _ & _ & Hc).
  apply copy_chunk_bounds in Hc; [|done]. simpl in Hc.
  destruct Hc as (Hi & Hn & Hnr' & Hlen & Htake & Hdrop & _).
  unfold len in *. repeat split; try done; lia.
Qed.

(** What a run keeps true, and what it returns. *)
Lemma ReadAt_loop_inv fuel sf offset (st st' : rstate) o :
  0 <= nr st <= len (p st) ->
  ReadAt_loop sha256hex fuel sf offset st = (o, st') ->
  nr st <= nr st' <= len (p st') /\
  length (p st') = length (p st) /\
  take (Z.to_nat (nr st)) (p st') = take (Z.to_nat (nr st)) (p st) /\
  drop (Z.to_nat (nr st')) (p st') = drop (Z.to_nat (nr st')) (p st) /\
  nr st' = nr st + total (copies sha256hex fuel sf offset st) /\
  forall n err, o = Returned n err ->
    (err = None /\ n = nr st') \/
    (n = 0 /\ exists ce e,
        chunk_of sf ce /\
        (ra sf (len (make (ChunkSize ce))) (ChunkOffset ce)).2 = Some e /\
        is_EOF e = false /\
        err = Some (Wrapped e "failed to read data" [])).
Proof.
  revert st. induction fuel as [|fuel IH]; intros st Hnr; simpl.
  { intros [= <- <-]. unfold total; simpl. repeat split; try done; lia. }
  assert (Hfin : ReadAt_finish st = (o, st') ->
                 st' = st /\ forall n err, o = Returned n err -> err = None /\ n = nr st).
  { unfold ReadAt_finish. rewrite bool_decide_true by done.
    intros [= <- <-]. split; [done|]. intros n err [= <- <-]. split; [done|].
    unfold len in *. rewrite length_take. lia. }
  case_bool_decide as Hlt.
  2:{ intros Hf. apply Hfin in Hf as [-> Hret]. unfold total; simpl.
      repeat split; try done; try lia. intros n err Ho. left. by apply Hret. }
  destruct (ReadAt_iter _ _ _ _) as [n st1| |n err st1|st1] eqn:Hit.
  - intros Hloop.
    pose proof (ReadAt_iter_bounds _ _ _ _ _ Hnr Hit)
      as (Hn & Hnr1 & Hle1 & Hlen1 & Htake1 & Hdrop1).
    apply IH in Hloop; [|lia].
    destruct Hloop as (Hnr' & Hlen' & Htake' & Hdrop' & Hsum & Hret).
    split; [lia|]. split; [congruence|].
    split.
    { rewrite <- Htake1.
      replace (Z.to_nat (nr st)) with (Z.to_nat (nr st) `min` Z.to_nat (nr st1))%nat by lia.
      rewrite <- !take_take. by rewrite Htake'. }
    split.
    { replace (Z.to_nat (nr st')) with
        (Z.to_nat (nr st1) + (Z.to_nat (nr st') - Z.to_nat (nr st1)))%nat by lia.
      rewrite <- !drop_drop, <- Hdrop1.
      rewrite !drop_drop.
      replace (Z.to_nat (nr st1) + (Z.to_nat (nr st') - Z.to_nat (nr st1)))%nat
        with (Z.to_nat (nr st')) by lia.
      done. }
    split; [unfold total in *; simpl; lia|]. done.
  - intros Hf. apply Hfin in Hf as [-> Hret]. unfold total; simpl.
    repeat split; try done; try lia. intros n err Ho. left. by apply Hret.
  - intros [= <- <-].
    apply ReadAt_iter_Return in Hit as (-> & -> & ce & e & Hce & Hra & He & ->).
    unfold total; simpl. repeat split; try done; try lia.
    intros n err [= <- <-]. right. split; [done|].
    exists ce, e. repeat split; try done. by eexists.
  - intros [= <- <-]. unfold total; simpl.
    assert (Hpanic : st1 = st \/ (p st1 = p st /\ nr st1 = nr st)).
    { revert Hit. unfold ReadAt_iter.
      destruct (r_ChunkEntryForOffset _ _ _) as [ce|]; [|discriminate].
      assert (Hcc : forall data s, copy_chunk offset ce data s = Panic st1 -> s = st1).
      { intros data s. unfold copy_chunk. case_bool_decide.
        - destruct (copy _ _); discriminate.
        - by intros [= ->]. }
      destruct (probe _ _ _) as [data|]; [intros Hc; apply Hcc in Hc; by left|].
      case_bool_decide; [intros [= ->]; by left|].
      destruct (ra sf _ _) as [delivered [e|]].
      - destruct (is_EOF e); [|discriminate].
        intros Hc; apply Hcc in Hc; subst st1; by right.
      - intros Hc; apply Hcc in Hc; subst st1; by right. }
    assert (Hp : p st1 = p st /\ nr st1 = nr st) by (destruct Hpanic as [->|]; done).
    destruct Hp as [Hp Hn]. rewrite Hp, Hn.
    repeat split; try done; lia.
Qed.



(** What one successful [copy] writes. *)
Lemma copy_chunk_written offset ce data (st st' : rstate) n :
  0 <= nr st <= len (p st) ->
  copy_chunk offset ce data st = Next n st' ->
  take (Z.to_nat (nr st')) (p st') =
    take (Z.to_nat (nr st)) (p st) ++
    take (Z.to_nat n)
      (drop (Z.to_nat (sub64 (add64 offset (nr st)) (ChunkOffset ce))) data).
Proof.
  intros Hnr. unfold copy_chunk. cbv zeta. set (i := sub64 _ _).
  case_bool_decide; [|discriminate]. unfold copy.
  intros [= <- <-]; simpl.
  set (src := drop (Z.to_nat i) data). set (dst := drop _ (p st)).
  set (m := Nat.min (length dst) (length src)).
  rewrite Nat2Z.id.
  replace (Z.to_nat (nr st + Z.of_nat m))
    with (length (take (Z.to_nat (nr st)) (p st)) + m)%nat
    by (rewrite length_take; unfold len in *; lia).
  rewrite take_app_add. f_equal.
  rewrite take_app_le by (rewrite length_take; lia).
  rewrite take_take. f_equal. lia.
Qed.

(** An iteration that runs to its end copied from [source]. *)
Lemma ReadAt_iter_written sf offset (st st' : rstate) n ce :
  0 <= nr st <= len (p st) ->
  r_ChunkEntryForOffset (r sf) (name sf) (add64 offset (nr st)) = Some ce ->
  ReadAt_iter sha256hex sf offset st = Next n st' ->
  take (Z.to_nat (nr st')) (p st') =
    take (Z.to_nat (nr st)) (p st) ++
    take (Z.to_nat n)
      (drop (Z.to_nat (sub64 (add64 offset (nr st)) (ChunkOffset ce)))
         (source sha256hex sf (cache st) ce)).
Proof.
  intros Hnr Hce. unfold ReadAt_iter, source, chunk_id, chunk_bytes. rewrite Hce.
  destruct (probe _ _ _) as [data|]; [by apply copy_chunk_written|].
  case_bool_decide; [discriminate|].
  destruct (ra sf _ _) as [delivered [e|]]; simpl.
  - destruct (is_EOF e); [|discriminate].
    intros Hc. by apply copy_chunk_written in Hc.
  - intros Hc. by apply copy_chunk_written in Hc.
Qed.

(** The bytes a run leaves in the first [nr] places of the buffer. *)
Lemma ReadAt_loop_written fuel sf offset (st st' : rstate) o :
  0 <= nr st <= len (p st) ->
  ReadAt_loop sha256hex fuel sf offset st = (o, st') ->
  take (Z.to_nat (nr st')) (p st') =
    take (Z.to_nat (nr st)) (p st) ++ concat (copied sha256hex fuel sf offset st).
Proof.
  revert st. induction fuel as [|fuel IH]; intros st Hnr Hrun.
  { simpl in *. injection Hrun as <- <-. by rewrite app_nil_r. }
  assert (Hstay : copies sha256hex (S fuel) sf offset st = [] ->
                  copied sha256hex (S fuel) sf offset st = [] ->
                  take (Z.to_nat (nr st')) (p st') =
                    take (Z.to_nat (nr st)) (p st) ++
                    concat (copied sha256hex (S fuel) sf offset st)).
  { intros Hnone ->. simpl. rewrite app_nil_r.
    apply ReadAt_loop_inv in Hrun as (_ & _ & Htake & _ & Hsum & _); [|done].
    rewrite Hnone in Hsum. unfold total in Hsum; simpl in Hsum.
    replace (nr st') with (nr st) by lia. exact Htake. }
  simpl in Hrun |- *. simpl in Hstay.
  case_bool_decide as Hlt; [|by apply Hstay].
  destruct (ReadAt_iter sha256hex sf offset st) as [n st1| |n err st1|st1] eqn:Hit;
    try (apply Hstay; [done|by destruct (r_ChunkEntryForOffset _ _ _)]).
  destruct (r_ChunkEntryForOffset _ _ _) as [ce|] eqn:Hce.
  2:{ unfold ReadAt_iter in Hit. by rewrite Hce in Hit. }
  pose proof (ReadAt_iter_bounds _ _ _ _ _ Hnr Hit) as (Hn & Hnr1 & Hle1 & _).
  rewrite (IH st1) by (done || lia).
  rewrite (ReadAt_iter_written _ _ _ _ _ _ Hnr Hce Hit). simpl.
  by rewrite app_assoc.
Qed.

(** C3: whenever [ReadAt] returns, either the section reader answered an
    error other than [io.EOF], or the result is [(nr, nil)] with [nr]
    the number of bytes copied into the caller's buffer: [nr] is the sum
    of the results of [copy], the first [nr] places of the buffer hold
    the bytes that the iterations took from their chunks, one after the
    other, and the other places are as the caller left them. A missing
    chunk entry ends the loop like an exhausted buffer. *)
Theorem ReadAt_returns_bytes_copied fuel sf (c : C) buf offset n err (st' : rstate) :
  ReadAt sha256hex fuel sf c buf offset = (Returned n err, st') ->
  (err = None /\
   n = total (copies sha256hex fuel sf offset {| p := buf; nr := 0; cache := c |}) /\
   0 <= n <= len buf /\
   length (p st') = length buf /\
   take (Z.to_nat n) (p st') =
     concat (copied sha256hex fuel sf offset {| p := buf; nr := 0; cache := c |}) /\
   drop (Z.to_nat n) (p st') = drop (Z.to_nat n) buf) \/
  (n = 0 /\ exists ce e,
      chunk_of sf ce /\
      (ra sf (len (make (ChunkSize ce))) (ChunkOffset ce)).2 = Some e /\
      is_EOF e = false /\
      err = Some (Wrapped e "failed to read data" [])).
Proof.
  unfold ReadAt. intros Hrun.
  assert (Hstart : 0 <= nr {| p := buf; nr := 0; cache := c |}
                   <= len (p {| p := buf; nr := 0; cache := c |}))
    by (simpl; unfold len; lia).
  pose proof (ReadAt_loop_written _ _ _ _ _ _ Hstart Hrun) as Hwritten.
  apply ReadAt_loop_inv in Hrun; [|exact Hstart].
  simpl in Hrun, Hwritten. destruct Hrun as (Hnr & Hlen & _ & Hdrop & Hsum & Hret).
  destruct (Hret n err eq_refl) as [[-> ->]|Herr]; [left|by right].
  unfold len in *. repeat split; try done; lia.
Qed.

(** C2, as amended: an iteration that runs to its end advances [nr], and
    with it the read cursor [offset + nr], by the result of [copy]: the
    smaller of the room left in the caller's buffer and the bytes of the
    chunk from the cursor on. That is at most [ce.ChunkSize]. *)
Theorem ReadAt_iter_advances_by_copied sf offset (st st' : rstate) n ce :
  0 <= nr st < len (p st) ->
  r_ChunkEntryForOffset (r sf) (name sf) (add64 offset (nr st)) = Some ce ->
  ReadAt_iter sha256hex sf offset st = Next n st' ->
  let i := sub64 (add64 offset (nr st)) (ChunkOffset ce) in
  nr st' = nr st + n /\
  n = Z.min (len (p st) - nr st) (ChunkSize ce - i) /\
  0 <= n <= ChunkSize ce.
Proof.
  intros Hnr Hce Hit.
  apply ReadAt_iter_Next in Hit as (ce' & data & c & Hce' & Hlen & Hc).
  rewrite Hce in Hce'. injection Hce' as <-.
  apply copy_chunk_bounds in Hc; [|simpl; lia]. simpl in Hc.
  destruct Hc as (Hi & Hn & Hnr' & _). rewrite Hlen in Hn, Hi. cbv zeta. lia.
Qed.


(** Under the contract of [ChunkEntryForOffset], [ReadAt] returns, and
    within as many iterations as the buffer has bytes. *)
Lemma ReadAt_loop_total fuel sf offset (st : rstate) :
  toc_contract sf ->
  0 <= offset -> offset + len (p st) < 2 ^ 63 ->
  0 <= nr st <= len (p st) ->
  (Z.to_nat (len (p st) - nr st) < fuel)%nat ->
  exists n err st', ReadAt_loop sha256hex fuel sf offset st = (Returned n err, st').
Proof.
  intros Htoc Hoff. revert st.
  induction fuel as [|fuel IH]; intros st Hmax Hnr Hfuel; [lia|]. simpl.
  assert (Hfin : exists n err st', ReadAt_finish st = (Returned n err, st')).
  { unfold ReadAt_finish. rewrite bool_decide_true by done. by eexists _, _, _. }
  case_bool_decide as Hlt; [|done].
  destruct (ReadAt_iter _ _ _ _) as [n st1| |n err st1|st1] eqn:Hit.
  - pose proof (ReadAt_iter_bounds _ _ _ _ _ Hnr Hit)
      as (Hn & Hnr1 & Hle1 & Hlen1 & _).
    assert (Hpos : 0 < n).
    { apply ReadAt_iter_Next in Hit as (ce & data & c & Hce & Hlen & Hc).
      apply copy_chunk_bounds in Hc; [|done]. simpl in Hc.
      destruct Hc as (Hi & Hn' & _).
      unfold add64, sub64 in Hce, Hn'.
      rewrite wrap64_id in Hce by (unfold len in *; lia).
      apply Htoc in Hce as [Hlo Hhi]; [|lia].
      rewrite (wrap64_id (offset + nr st)) in Hn' by (unfold len in *; lia).
      rewrite wrap64_id in Hn' by (unfold len in *; lia).
      lia. }
    apply IH; unfold len in *; rewrite ?Hlen1; lia.
  - done.
  - by eexists _, _, _.
  - exfalso. revert Hit. unfold ReadAt_iter, add64.
    rewrite wrap64_id by (unfold len in *; lia).
    destruct (r_ChunkEntryForOffset _ _ _) as [ce|] eqn:Hce; [|discriminate].
    apply Htoc in Hce as [Hlo Hhi]; [|lia].
    assert (Hcc : forall data s,
               p s = p st -> nr s = nr st -> len data = ChunkSize ce ->
               copy_chunk offset ce data s <> Panic st1).
    { intros data s Hp Hn Hlen. unfold copy_chunk, add64, sub64. rewrite Hn.
      rewrite (wrap64_id (offset + nr st)) by (unfold len in *; lia).
      rewrite wrap64_id by (unfold len in *; lia).
      rewrite bool_decide_true by lia. destruct (copy _ _); discriminate. }
    unfold probe. destruct (Fetch _ _) as [data|].
    + case_bool_decide as Hlen; [by apply Hcc|].
      rewrite bool_decide_false by lia.
      destruct (ra sf _ _) as [delivered [e|]].
      * destruct (is_EOF e); [|discriminate].
        apply Hcc; try done. apply len_fill_make; lia.
      * apply Hcc; try done. apply len_fill_make; lia.
    + rewrite bool_decide_false by lia.
      destruct (ra sf _ _) as [delivered [e|]].
      * destruct (is_EOF e); [|discriminate].
        apply Hcc; try done. apply len_fill_make; lia.
      * apply Hcc; try done. apply len_fill_make; lia.
Qed.

Lemma ReadAt_total sf (c : C) buf offset :
  toc_contract sf ->
  0 <= offset -> offset + len buf < 2 ^ 63 ->
  exists n err st',
    ReadAt sha256hex (S (length buf)) sf c buf offset = (Returned n err, st').
Proof.
  intros Htoc Hoff Hmax. apply ReadAt_loop_total; simpl; try done; unfold len; lia.
Qed.

End Loop.

(** The store modelled from the spec answers only what was stored. *)
#[export] Instance MapCache_lawful : LawfulCache (gmap string (list byte)).
Proof.
  intros c id data id' x. unfold Fetch, Add; simpl.
  destruct (decide (id = id')) as [<-|Hne].
  - rewrite lookup_insert_eq. intros [= <-]. by left.
  - rewrite lookup_insert_ne by done. by right.
Qed.

Section Transparency.
Context {C : Type} `{LawfulCache C}.
Variable sha256hex : string -> string.
Variable sf : file.
Hypothesis Hunique : unique_ids sha256hex sf.
Hypothesis Hserved : served sf.

Abbreviation rstate := (@rstate C).

Lemma chunk_bytes_ext ce ce' :
  ChunkOffset ce = ChunkOffset ce' -> ChunkSize ce = ChunkSize ce' ->
  chunk_bytes sf ce = chunk_bytes sf ce'.
Proof. unfold chunk_bytes. by intros -> ->. Qed.

(** Adding a chunk's bytes under its ID keeps the cache right. *)
Lemma cache_ok_Add (c : C) ce :
  chunk_of sf ce -> cache_ok sha256hex sf c ->
  cache_ok sha256hex sf (Add c (chunk_id sha256hex sf ce) (chunk_bytes sf ce)).
Proof.
  intros Hce Hok ce' data Hce' Hf.
  apply fetch_add in Hf as [[Hid ->]|Hf].
  - destruct (Hunique ce' ce Hce' Hce Hid) as [Ho Hs]. by apply chunk_bytes_ext.
  - by apply Hok.
Qed.

(** With a right cache an iteration copies from the chunk's bytes, hit
    or miss, and leaves a right cache. *)
Lemma ReadAt_iter_normal offset (st : rstate) :
  cache_ok sha256hex sf (cache st) ->
  exists c', cache_ok sha256hex sf c' /\
    ReadAt_iter sha256hex sf offset st =
      match r_ChunkEntryForOffset (r sf) (name sf) (add64 offset (nr st)) with
      | None => Break
      | Some ce =>
        if bool_decide (ChunkSize ce < 0) then Panic st
        else copy_chunk offset ce (chunk_bytes sf ce)
               {| p := p st; nr := nr st; cache := c' |}
      end.
Proof.
  intros Hok. destruct st as [p0 nr0 c0]; simpl in *. unfold ReadAt_iter; simpl.
  destruct (r_ChunkEntryForOffset _ _ _) as [ce|] eqn:Hce; [|by exists c0].
  assert (Hchunk : chunk_of sf ce) by by eexists.
  assert (Hmiss :
    ChunkSize ce < 0 \/
    (let data := make (ChunkSize ce) in
     let '(delivered, err) := ra sf (len data) (ChunkOffset ce) in
     let data0 := fill data delivered in
     match err with
     | Some e =>
       if is_EOF e
       then copy_chunk offset ce data0
              {| p := p0; nr := nr0;
                 cache := Add c0 (genID sha256hex (digest sf) (ChunkOffset ce) (ChunkSize ce))
                            data0 |}
       else Return 0 (Wrap (Some e) "failed to read data")
              {| p := p0; nr := nr0; cache := c0 |}
     | None =>
       copy_chunk offset ce data0
         {| p := p0; nr := nr0;
            cache := Add c0 (genID sha256hex (digest sf) (ChunkOffset ce) (ChunkSize ce))
                       data0 |}
     end) =
    copy_chunk offset ce (chunk_bytes sf ce)
      {| p := p0; nr := nr0;
         cache := Add c0 (chunk_id sha256hex sf ce) (chunk_bytes sf ce) |}).
  { destruct (decide (ChunkSize ce < 0)) as [|Hpos]; [by left|right].
    cbv zeta. unfold chunk_bytes, chunk_id.
    pose proof (Hserved ce) as Hs.
    destruct (ra sf _ _) as [delivered [e|]]; simpl in *; [|done].
    by rewrite (Hs e Hchunk eq_refl). }
  unfold probe. destruct (Fetch c0 _) as [data|] eqn:Hf.
  - case_bool_decide as Hlen.
    + exists c0. split; [done|].
      rewrite bool_decide_false by (unfold len in Hlen; lia).
      by rewrite (Hok ce data Hchunk Hf).
    + exists (Add c0 (chunk_id sha256hex sf ce) (chunk_bytes sf ce)).
      split; [by apply cache_ok_Add|].
      case_bool_decide; [done|]. destruct Hmiss as [|Hmiss]; [lia|]. exact Hmiss.
  - exists (Add c0 (chunk_id sha256hex sf ce) (chunk_bytes sf ce)).
    split; [by apply cache_ok_Add|].
    case_bool_decide; [done|]. destruct Hmiss as [|Hmiss]; [lia|]. exact Hmiss.
Qed.

End Transparency.

#[export] Instance NoCache_lawful : LawfulCache NoCache.
Proof. intros c id data id' x. simpl. discriminate. Qed.

Section TwoCaches.
Context {C1 C2 : Type} `{LawfulCache C1} `{LawfulCache C2}.
Variable sha256hex : string -> string.
Variable sf : file.
Hypothesis Hunique : unique_ids sha256hex sf.
Hypothesis Hserved : served sf.

Lemma ReadAt_loop_transparent fuel offset (st1 : @rstate C1) (st2 : @rstate C2) :
  p st1 = p st2 -> nr st1 = nr st2 ->
  cache_ok sha256hex sf (cache st1) -> cache_ok sha256hex sf (cache st2) ->
  (ReadAt_loop sha256hex fuel sf offset st1).1 =
    (ReadAt_loop sha256hex fuel sf offset st2).1 /\
  p (ReadAt_loop sha256hex fuel sf offset st1).2 =
    p (ReadAt_loop sha256hex fuel sf offset st2).2.
Proof.
  revert st1 st2. induction fuel as [|fuel IH]; intros st1 st2 Hp Hn Hok1 Hok2; simpl.
  { done. }
  assert (Hfin : (ReadAt_finish st1).1 = (ReadAt_finish st2).1 /\
                 p (ReadAt_finish st1).2 = p (ReadAt_finish st2).2).
  { unfold ReadAt_finish. rewrite Hp, Hn. by case_bool_decide. }
  rewrite Hp, Hn. case_bool_decide as Hlt; [|done].
  destruct (ReadAt_iter_normal sha256hex sf Hunique Hserved offset st1 Hok1)
    as (c1 & Hc1 & ->).
  destruct (ReadAt_iter_normal sha256hex sf Hunique Hserved offset st2 Hok2)
    as (c2 & Hc2 & ->).
  rewrite Hn.
  destruct (r_ChunkEntryForOffset _ _ _) as [ce|]; [|done].
  case_bool_decide; [done|].
  unfold copy_chunk; simpl. rewrite ?Hp, ?Hn.
  case_bool_decide; [|done].
  apply IH; simpl; done.
Qed.

(** C1: for a file whose chunk IDs tell its chunks apart and whose
    section reader serves its chunks, two runs of [ReadAt] on the same
    buffer and offset, against any two caches (of any two kinds) that
    hold under the file's chunk IDs nothing but the chunks' bytes, answer
    the same count and error and leave the same bytes in the buffer.
    Which chunks hit and which miss is decided by the caches, and these
    are arbitrary: all hits, all misses as with [no_cache], or a mix. *)
Theorem ReadAt_cache_transparent fuel (c1 : C1) (c2 : C2) buf offset :
  cache_ok sha256hex sf c1 -> cache_ok sha256hex sf c2 ->
  (ReadAt sha256hex fuel sf c1 buf offset).1 = (ReadAt sha256hex fuel sf c2 buf offset).1 /\
  p (ReadAt sha256hex fuel sf c1 buf offset).2 =
    p (ReadAt sha256hex fuel sf c2 buf offset).2.
Proof. intros Hok1 Hok2. by apply ReadAt_loop_transparent. Qed.

End TwoCaches.
End ReaderProps.

Module PrefetchProps.
Import Go Reader.

(** [io.ReadFull] on the tar reader delivers the bytes at the reader's
    position, and moves the position past them. *)
Lemma tar_ReadFull_spec t data :
  (tar_ReadFull t data).1.1 = fill data (take (length data) (cur t)) /\
  cur (tar_ReadFull t data).2 = drop (length data) (cur t) /\
  pending (tar_ReadFull t data).2 = pending t.
Proof.
  unfold tar_ReadFull. repeat case_bool_decide; simpl.
  - destruct data; [|done]. done.
  - split; [|done]. unfold fill. rewrite length_take.
    rewrite drop_ge by lia. rewrite app_nil_r.
    rewrite take_take. f_equal. lia.
  - split; [|done]. destruct H1 as [-> _]. unfold fill; simpl.
    rewrite take_nil; simpl. rewrite drop_0. by rewrite take_ge.
  - split; [|done]. by rewrite take_ge by lia.
Qed.

Section ChunkLoop.
Context {C : Type} `{BlobCache C}.
Variable sha256hex : string -> string.

Abbreviation cstate := (@cstate C).


(** A miss that lets the loop go on read the chunk at the stream's
    position. *)
Lemma chunk_iter_miss sr h fe (st st' : cstate) ce :
  r_ChunkEntryForOffset sr (h_Name h) (c_nr st) = Some ce ->
  probe (c_cache st) (genID sha256hex (Digest fe) (ChunkOffset ce) (ChunkSize ce)) ce
    = None ->
  chunk_iter sha256hex sr h fe st = CNext st' ->
  0 <= ChunkSize ce /\
  c_nr st = ChunkOffset ce /\
  c_nr st' = add64 (c_nr st) (ChunkSize ce) /\
  cur (c_tr st') = drop (Z.to_nat (ChunkSize ce)) (cur (c_tr st)) /\
  pending (c_tr st') = pending (c_tr st) /\
  c_cache st' =
    Add (c_cache st) (genID sha256hex (Digest fe) (ChunkOffset ce) (ChunkSize ce))
      (fill (make (ChunkSize ce)) (take (Z.to_nat (ChunkSize ce)) (cur (c_tr st)))).
Proof.
  intros Hce Hmiss. unfold chunk_iter. rewrite Hce, Hmiss.
  case_bool_decide as Hoff; [discriminate|].
  case_bool_decide as Hneg; [discriminate|].
  pose proof (tar_ReadFull_spec (c_tr st) (make (ChunkSize ce))) as (Hd & Hc & Hp).
  destruct (tar_ReadFull _ _) as [[data err] tr']. simpl in Hd, Hc, Hp.
  unfold make in Hd, Hc. rewrite length_replicate in Hd, Hc.
  assert (Hst : CNext {| c_nr := add64 (c_nr st) (ChunkSize ce); c_tr := tr';
                         c_cache := Add (c_cache st)
                           (genID sha256hex (Digest fe) (ChunkOffset ce) (ChunkSize ce))
                           data |} = CNext st' ->
          0 <= ChunkSize ce /\
          c_nr st = ChunkOffset ce /\
          c_nr st' = add64 (c_nr st) (ChunkSize ce) /\
          cur (c_tr st') = drop (Z.to_nat (ChunkSize ce)) (cur (c_tr st)) /\
          pending (c_tr st') = pending (c_tr st) /\
          c_cache st' =
            Add (c_cache st)
              (genID sha256hex (Digest fe) (ChunkOffset ce) (ChunkSize ce))
              (fill (make (ChunkSize ce))
                 (take (Z.to_nat (ChunkSize ce)) (cur (c_tr st))))).
  { intros [= <-]; simpl. rewrite Hd. unfold make.
    repeat split; try done; try lia. }
  destruct err as [e|]; [|exact Hst].
  destruct (is_EOF e); [exact Hst|discriminate].
Qed.




(** A loop that ends without an error has made complete iterations only,
    and stands at the entry's end or where no chunk is found. *)
Lemma chunk_loop_returns_after fuel sr h fe (st st' : cstate) :
  chunk_loop sha256hex fuel sr h fe st = (EReturned None, st') ->
  exists k,
    (k <= fuel)%nat /\ chunk_after sha256hex k sr h fe st = Some st' /\
    (h_Size h <= c_nr st' \/ r_ChunkEntryForOffset sr (h_Name h) (c_nr st') = None).
Proof.
  revert st. induction fuel as [|fuel IH]; intros st; simpl; [discriminate|].
  case_bool_decide as Hlt.
  2:{ intros [= <-]. exists 0%nat. split; [lia|]. split; [done|]. left. lia. }
  destruct (chunk_iter sha256hex sr h fe st) as [st1| |e st1|st1] eqn:Hit;
    try discriminate.
  - intros Hrun. destruct (IH _ Hrun) as (k & Hk & Hafter & Hstop).
    exists (S k). split; [lia|]. simpl. rewrite bool_decide_true by done.
    by rewrite Hit.
  - intros [= <-]. exists 0%nat. split; [lia|]. split; [done|]. right.
    unfold chunk_iter in Hit.
    destruct (r_ChunkEntryForOffset _ _ _) as [ce|]; [|done].
    destruct (probe _ _ _); [discriminate|].
    repeat case_bool_decide; try discriminate.
    destruct (tar_ReadFull _ _) as [[data [e|]] tr']; [destruct (is_EOF e)|];
      discriminate.
Qed.


(** The entry loop of [CacheTarGzWithReader] hands a file entry to the
    chunk loop with [nr] at 0, the stream at the entry's start and the
    cache as it is, and goes on from the stream and the cache that loop
    leaves. *)
Lemma entry_loop_chunk_loop fuel sr t (c : C) h t' fe :
  tar_Next t = inl (h, t') ->
  ~ (h_Name h = PrefetchLandmark \/ h_Name h = NoPrefetchLandmark \/
     h_Name h = TOCTarName) ->
  r_Lookup sr (trim_slash (h_Name h)) = Some fe ->
  entry_loop sha256hex (S fuel) sr t c =
    match chunk_loop sha256hex fuel sr h fe {| c_nr := 0; c_tr := t'; c_cache := c |} with
    | (EReturned None, st) => entry_loop sha256hex fuel sr (c_tr st) (c_cache st)
    | (o, st) => (o, c_cache st)
    end.
Proof.
  intros Hnext Hname Hfe. simpl. rewrite Hnext.
  rewrite bool_decide_false by done. by rewrite Hfe.
Qed.


End ChunkLoop.

Section Landmarks.
Context {C : Type} `{BlobCache C}.
Variable sha256hex : string -> string.
Variable gunzip : list byte -> TarReader + error.

Abbreviation Reader := (@Reader C).

(** C8: the three landmark cases of [PrefetchWithReader]. With
    [.no.prefetch.landmark] in the TOC it returns nil and leaves cache
    and section reader as they were. Otherwise, with
    [.prefetch.landmark] in the TOC, it fails when the entry's offset
    exceeds the layer size, again without reading or caching, and else
    fetches and caches that offset's worth of bytes whatever size was
    asked for. With neither, a size above the layer size is replaced by
    the layer size. *)
Theorem PrefetchWithReader_landmarks fuel (gr : Reader) sr prefetchSize :
  (forall e,
      r_Lookup (gr_r gr) NoPrefetchLandmark = Some e ->
      PrefetchWithReader sha256hex gunzip fuel gr sr prefetchSize =
        (EReturned None, in_progress gr false, sr)) /\
  (forall e,
      r_Lookup (gr_r gr) NoPrefetchLandmark = None ->
      r_Lookup (gr_r gr) PrefetchLandmark = Some e ->
      (Offset e > sr_Size sr ->
       PrefetchWithReader sha256hex gunzip fuel gr sr prefetchSize =
         (EReturned (Some (Errorf
            "invalid landmark offset %d is larger than layer size %d"
            [FInt (Offset e); FInt (sr_Size sr)])), in_progress gr false, sr)) /\
      (Offset e <= sr_Size sr ->
       PrefetchWithReader sha256hex gunzip fuel gr sr prefetchSize =
         prefetch_done
           (fetch_and_cache sha256hex gunzip fuel (in_progress gr true) sr (Offset e)))) /\
  (r_Lookup (gr_r gr) NoPrefetchLandmark = None ->
   r_Lookup (gr_r gr) PrefetchLandmark = None ->
   PrefetchWithReader sha256hex gunzip fuel gr sr prefetchSize =
     prefetch_done
       (fetch_and_cache sha256hex gunzip fuel (in_progress gr true) sr
          (Z.min prefetchSize (sr_Size sr)))).
Proof.
  unfold PrefetchWithReader, in_progress; simpl. split; [|split].
  - by intros e ->.
  - intros e -> ->. split; intros Hoff.
    + by rewrite bool_decide_true.
    + by rewrite bool_decide_false by lia.
  - intros -> ->. case_bool_decide.
    + by rewrite Z.min_r by lia.
    + by rewrite Z.min_l by lia.
Qed.

End Landmarks.
End PrefetchProps.

Module RemoteProps.
Import Go Remote.

Section Resolve.
Context {World RoundTripper : Type}.
Variable env : Env World RoundTripper.
Variable config : gmap string ResolverConfig.

Abbreviation RState := (@RState World RoundTripper).
Abbreviation vars := (@vars RoundTripper).

Ltac run := unfold mbind, M_bind, mret, M_ret, pool, pool_store, round_trip in *; simpl in *.

Ltac fresh_transport :=
  destruct (authnTransport _ _ _) as [[? | ?] ?]; [|discriminate];
  destruct (redirect _ _ _ _) as [[? [? | ]] ?]; [discriminate|];
  intros [= <- <-]; simpl; rewrite lookup_insert_eq; by eexists.

Lemma redirect_pool endpointURL t (s : RState) :
  trPool (redirect env endpointURL t s).2 = trPool s.
Proof.
  unfold redirect. destruct (NewRequest _ _ _); run; [done|].
  destruct (RoundTrip _ _ _ _) as [[res|err] w]; simpl; [|done].
  repeat case_bool_decide; simpl; try done; destruct (bool_decide _); done.
Qed.

Lemma authnTransport_pool nr (s : RState) :
  trPool (authnTransport env nr s).2 = trPool s.
Proof.
  unfold authnTransport. destruct (keychain_Resolve _ _); run; [done|].
  by destruct (transport_New _ _ _) as [raced w].
Qed.

(** When [resolveReference] succeeds the pool holds a transport for the
    reference: the branch "transport not found in pool" of [resolve] is
    not taken. *)
Lemma resolveReference_pooled nr digest (s s1 : RState) u :
  resolveReference env nr digest s = ((u, None), s1) ->
  is_Some (trPool s1 !! ref_Name nr).
Proof.
  unfold resolveReference. run.
  set (endpoint := (_ +:+ _)%string).
  destruct (trPool s !! ref_Name nr) as [t0|] eqn:Hpool.
  - pose proof (redirect_pool endpoint t0 s) as Hp.
    destruct (redirect env endpoint t0 s) as [[url [err|]] s2]; simpl in Hp.
    + fresh_transport.
    + intros [= <- <-]. rewrite Hp, Hpool. by eexists.
  - fresh_transport.
Qed.

Lemma valid_host_dec h :
  (bool_decide (Host h = EmptyString) || contains_slash (Host h)) = false <->
  valid_host h.
Proof.
  unfold valid_host. rewrite orb_false_iff, bool_decide_eq_false. done.
Qed.

(** The winning iteration. *)
Lemma try_host_win named digest h (v : vars) (s s' : RState) nr u t n :
  host_succeeds env named digest h s nr u t n s' ->
  try_host env named digest h v s =
    (({| nref := Some nr; url := u; tr := Some t; sz := n; rErr := None |}, true), s').
Proof.
  intros (Hvalid & Hparse & s1 & Hres & Hpool & Hsize).
  unfold try_host. cbv zeta. apply valid_host_dec in Hvalid. rewrite Hvalid, Hparse.
  run. rewrite Hres. simpl. rewrite Hpool, Hsize. done.
Qed.

(** A losing iteration puts one more context, naming the host, around
    the error. *)
Lemma try_host_fail named digest h (v : vars) (s s' : RState) err :
  host_fails env named digest h s s' ->
  rErr v = Some err ->
  exists v' format args,
    try_host env named digest h v s = ((v', false), s') /\
    rErr v' = Some (Wrapped err format (FStr (Host h) :: args)) /\
    (~ valid_host h ->
     format = "host %q: mirror must be a domain name"%string /\ args = []).
Proof.
  intros Hfail Herr. unfold try_host. cbv zeta.
  destruct Hfail as [[Hinv ->]|[Hvalid Hfail]].
  - destruct (bool_decide _ || _) eqn:Hb.
    2:{ apply valid_host_dec in Hb. by destruct Hinv. }
    run. rewrite Herr. eexists _, _, _. split; [done|]. simpl. split; done.
  - pose proof Hvalid as Hb. apply valid_host_dec in Hb. rewrite Hb.
    destruct (ParseReference _ _ _) as [nr|perr].
    + destruct Hfail as (u & rerr & s1 & Hres & Hrest). run. rewrite Hres. simpl.
      destruct rerr as [rerr|].
      * subst s'. rewrite Herr. eexists _, _, _. split; [done|].
        simpl. split; [done|]. intros Hn; by destruct Hn.
      * destruct Hrest as (t & n & serr & Hpool & Hsize).
        rewrite Hpool, Hsize. simpl. rewrite Herr.
        eexists _, _, _. split; [done|].
        simpl. split; [done|]. intros Hn; by destruct Hn.
    + subst s'. run. rewrite Herr. eexists _, _, _. split; [done|].
      simpl. split; [done|]. intros Hn; by destruct Hn.
Qed.

(** Every host succeeds or fails, from any state. *)
Lemma host_outcome named digest h (s : RState) :
  (exists nr u t n s', host_succeeds env named digest h s nr u t n s') \/
  (exists s', host_fails env named digest h s s').
Proof.
  unfold host_succeeds, host_fails.
  destruct (bool_decide (Host h = EmptyString) || contains_slash (Host h)) eqn:Hb.
  { right. exists s. left. split; [|done]. intros Hv. apply valid_host_dec in Hv.
    congruence. }
  apply valid_host_dec in Hb.
  destruct (ParseReference env _ _) as [nr|perr] eqn:Hparse.
  2:{ right. exists s. by right. }
  destruct (resolveReference env nr digest s) as [[u [rerr|]] s1] eqn:Hres.
  { right. exists s1. right. split; [done|]. by exists u, (Some rerr), s1. }
  destruct (resolveReference_pooled _ _ _ _ _ Hres) as [t Hpool].
  destruct (getSize env u t s1) as [[n [serr|]] s2] eqn:Hsize.
  - right. exists s2. right. split; [done|].
    exists u, None, s1. split; [done|]. by exists t, n, serr.
  - left. exists nr, u, t, n, s2. split; [done|]. split; [done|]. by exists s1.
Qed.

Lemma first_success_total named digest hosts (s : RState) :
  exists res s', first_success env named digest hosts s res s'.
Proof.
  revert s. induction hosts as [|h hosts IH]; intros s.
  { exists None, s. constructor. }
  destruct (host_outcome named digest h s)
    as [(nr & u & t & n & s' & Hwin)|(s1 & Hfail)].
  - exists (Some (nr, u, t, n)), s'. by constructor.
  - destruct (IH s1) as (res & s' & Hrest). exists res, s'. by econstructor.
Qed.

Lemma try_hosts_spec named digest hosts (v : vars) (s s' : RState) res err :
  first_success env named digest hosts s res s' ->
  rErr v = Some err ->
  match res with
  | Some (nr, u, t, n) =>
    try_hosts env named digest hosts v s =
      ({| nref := Some nr; url := u; tr := Some t; sz := n; rErr := None |}, s')
  | None =>
    exists v' err',
      try_hosts env named digest hosts v s = (v', s') /\
      rErr v' = Some err' /\
      exists ctxs,
        contexts err' = ctxs ++ contexts err /\
        map context_host ctxs = rev (map Host hosts) /\
        forall h, h ∈ hosts -> ~ valid_host h ->
          ("host %q: mirror must be a domain name"%string, [FStr (Host h)]) ∈ ctxs
  end.
Proof.
  intros Hfs. revert v err.
  induction Hfs as [s|h hs s nr u t n s' Hwin|h hs s s1 res s' Hfail Hfs IH];
    intros v err Herr.
  - simpl. exists v, err. run. split; [done|]. split; [done|].
    exists []. split; [done|]. split; [done|]. intros h Hin. by apply elem_of_nil in Hin.
  - simpl. run. by rewrite (try_host_win _ _ _ v _ _ _ _ _ _ Hwin).
  - destruct (try_host_fail _ _ _ v _ _ err Hfail Herr)
      as (v1 & format & args & Htry & Herr1 & Hinv).
    specialize (IH v1 _ Herr1). simpl. run. rewrite Htry.
    destruct res as [[[[nr u] t] n]|]; [exact IH|].
    destruct IH as (v' & err' & Hrun & Herr' & ctxs & Hctx & Hhosts & Hbad).
    exists v', err'. split; [done|]. split; [done|].
    exists (ctxs ++ [(format, FStr (Host h) :: args)]).
    split. { rewrite Hctx. simpl. by rewrite <- app_assoc. }
    split. { rewrite map_app, Hhosts. done. }
    intros h' Hin Hnv. apply elem_of_cons in Hin as [->|Hin].
    + apply elem_of_app. right. destruct (Hinv Hnv) as [-> ->]. by apply list_elem_of_singleton.
    + apply elem_of_app. left. by apply Hbad.
Qed.

(** C5: [resolve] tries the mirrors configured for the reference's
    domain and then the domain itself, in this order; the first host
    for which reference parsing, redirect resolution and size probing
    all succeed gives the fetcher its reference, URL and transport and
    the call its size; when no host does, the error carries, under the
    context naming the reference, one context per host in the order
    tried, that of a host with an empty name or with a slash in it
    being "mirror must be a domain name". One of the two cases always
    applies. *)
Theorem resolve_first_success ref digest named (s : RState) :
  ParseDockerRef env ref = inl named ->
  hosts_of config named =
    default [] (Mirrors <$> config !! Domain named) ++
    [{| Host := Domain named; Insecure := false |}] /\
  (exists res s', first_success env named digest (hosts_of config named) s res s') /\
  (forall nr u t n s',
      first_success env named digest (hosts_of config named) s (Some (nr, u, t, n)) s' ->
      resolve env config ref digest s =
        ((Some {| f_ref := ref; f_digest := digest; f_nref := Some nr;
                  f_url := u; f_tr := Some t |}, n, None), s')) /\
  (forall s',
      first_success env named digest (hosts_of config named) s None s' ->
      exists chain,
        resolve env config ref digest s =
          ((None, 0, Some (Wrapped chain "cannot resolve ref %q (%q)"
                             [FStr ref; FStr digest])), s') /\
        map context_host (contexts chain) = rev (map Host (hosts_of config named)) /\
        forall h, h ∈ hosts_of config named -> ~ valid_host h ->
          ("host %q: mirror must be a domain name"%string, [FStr (Host h)])
            ∈ contexts chain).
Proof.
  intros Hparse. split; [|split; [|split]].
  - unfold hosts_of. by destruct (config !! Domain named).
  - apply first_success_total.
  - intros nr u t n s' Hfs. unfold resolve. rewrite Hparse. run.
    pose proof (try_hosts_spec _ _ _
      {| nref := None; url := EmptyString; tr := None; sz := 0;
         rErr := Some (Errorf "failed to resolve" []) |} _ _ _ _ Hfs eq_refl) as Hrun.
    simpl in Hrun. by rewrite Hrun.
  - intros s' Hfs. unfold resolve. rewrite Hparse. run.
    pose proof (try_hosts_spec _ _ _
      {| nref := None; url := EmptyString; tr := None; sz := 0;
         rErr := Some (Errorf "failed to resolve" []) |} _ _ _ _ Hfs eq_refl) as Hrun.
    destruct Hrun as (v' & err' & -> & Herr' & ctxs & Hctx & Hhosts & Hbad).
    rewrite Herr'. simpl. exists err'. split; [done|].
    simpl in Hctx. rewrite app_nil_r in Hctx. rewrite Hctx. done.
Qed.

(** C4: when the re-resolution made by [Refresh] succeeds, a size other
    than the blob's makes [Refresh] answer the size error and leave the
    blob, its fetcher and [lastCheck] included, as it was; an equal size
    makes it install the new fetcher and set [lastCheck] to the time of
    the call. *)
Theorem Refresh_size_check now bl f new newSize (s s' : RState) :
  b_fetcher bl = Some f ->
  resolve env config (f_ref f) (f_digest f) s = ((new, newSize, None), s') ->
  (newSize <> b_size bl ->
   Refresh env config now (PtrBlob bl) s =
     (Refreshed (PtrBlob bl)
        (Some (Errorf "Invalid size of new blob %d; want %d"
                 [FInt newSize; FInt (b_size bl)])), s')) /\
  (newSize = b_size bl ->
   Refresh env config now (PtrBlob bl) s =
     (Refreshed
        (PtrBlob {| b_fetcher := new; b_size := b_size bl;
                    b_chunkSize := b_chunkSize bl; b_lastCheck := now;
                    b_checkInterval := b_checkInterval bl |}) None, s')).
Proof.
  intros Hf Hres. unfold Refresh, refresh. rewrite Hf. run. rewrite Hres.
  split; intros Hsize.
  - by rewrite bool_decide_true.
  - by rewrite bool_decide_false by (intros Hne; by apply Hne).
Qed.

End Resolve.
End RemoteProps.

Module FetchProps.
Import Go Remote.

Lemma append_nil (s : string) : (EmptyString +:+ s = s)%string.
Proof. reflexivity. Qed.

Lemma append_cons a (s1 s2 : string) : (String a s1 +:+ s2 = String a (s1 +:+ s2))%string.
Proof. reflexivity. Qed.

Lemma append_assoc (s1 s2 s3 : string) : ((s1 +:+ s2) +:+ s3 = s1 +:+ (s2 +:+ s3))%string.
Proof.
  induction s1 as [|a s1 IH]; [by rewrite !append_nil|].
  rewrite !append_cons. by f_equal.
Qed.

Lemma length_append (s1 s2 : string) :
  String.length (s1 +:+ s2) = (String.length s1 + String.length s2)%nat.
Proof.
  induction s1 as [|a s1 IH]; [by rewrite append_nil|].
  rewrite append_cons. simpl. by f_equal.
Qed.

Lemma substring_append (s1 s2 : string) :
  String.substring 0 (String.length s1) (s1 +:+ s2) = s1.
Proof.
  induction s1 as [|a s1 IH].
  - rewrite append_nil. by destruct s2.
  - rewrite append_cons. simpl. by f_equal.
Qed.

Lemma concat_cons2 sep (x y : string) ys :
  String.concat sep (x :: y :: ys) = (x +:+ sep +:+ String.concat sep (y :: ys))%string.
Proof. done. Qed.

Section Fetch.
Context {World RoundTripper : Type}.
Variable env : Env World RoundTripper.

(** The loop of [fetch] keeps a trailing comma behind the ranges joined
    so far. *)
Lemma ranges_loop requests (acc : string) :
  fold_left (fun ranges reg =>
               ranges +:+ (fmt_d (b reg) +:+ "-" +:+ fmt_d (e reg) +:+ ","))%string
            requests (acc +:+ ",")%string =
  (String.concat "," (acc :: map render requests) +:+ ",")%string.
Proof.
  revert acc. induction requests as [|reg requests IH]; intros acc; [done|].
  simpl fold_left.
  replace ((acc +:+ ",") +:+ (fmt_d (b reg) +:+ "-" +:+ fmt_d (e reg) +:+ ","))%string
    with ((acc +:+ "," +:+ render reg) +:+ ",")%string.
  2:{ unfold render. by rewrite !append_assoc. }
  rewrite IH. f_equal. simpl map. rewrite concat_cons2.
  destruct (map render requests) as [|y ys]; [done|].
  rewrite !concat_cons2. by rewrite !append_assoc.
Qed.

Lemma range_header_joined requests :
  range_header requests = String.concat "," ("bytes=0-0"%string :: map render requests).
Proof.
  unfold range_header. cbv zeta.
  change "bytes=0-0,"%string with ("bytes=0-0" +:+ ",")%string.
  rewrite ranges_loop.
  set (joined := String.concat "," ("bytes=0-0"%string :: map render requests)).
  rewrite length_append.
  replace (String.length joined + String.length "," - 1)%nat
    with (String.length joined) by (simpl; lia).
  apply substring_append.
Qed.

(** C6: [fetch] makes its one round trip with a GET request whose
    [Range] header is [bytes=0-0] and the requested regions, each as
    [b-e], in the order asked, joined by commas; for the regions
    10-19 and 40-49 this is [bytes=0-0,10-19,40-49]. The world moves by
    that round trip alone and the answer is read off its response. *)
Theorem fetch_range_request (f : fetcher) requests opts (w : World) t :
  NewRequest env "GET" (f_url f) = None ->
  match opt_tr (apply_options opts) with Some t' => Some t' | None => f_tr f end = Some t ->
  let ctx := match opt_ctx (apply_options opts) with
             | Some c => c
             | None => WithTimeout 30
             end in
  let req := fetch_request (f_url f) ctx requests in
  Method req = "GET"%string /\ URL req = f_url f /\
  Header_Get (Header req) "Range" =
    String.concat "," ("bytes=0-0"%string :: map render requests) /\
  range_header [ {| b := 10; e := 19 |}; {| b := 40; e := 49 |} ]
    = "bytes=0-0,10-19,40-49"%string /\
  (fetch env f requests opts w).2 = (RoundTrip env t req w).2 /\
  (fetch env f requests opts w).1 =
    match (RoundTrip env t req w).1 with
    | inl res =>
      Fetched (read_response env (f_url f) res ∅).1 (read_response env (f_url f) res ∅).2
    | inr err => Fetched None (Wrapf (Some err) "failed to request to %q" [FStr (f_url f)])
    end.
Proof.
  intros Hreq Htr ctx req.
  split; [done|]. split; [done|].
  split. { simpl. apply range_header_joined. }
  split. { by vm_compute. }
  unfold fetch. cbv zeta. rewrite Hreq, Htr. fold ctx. fold req.
  destruct (RoundTrip env t req w) as [[res|err] w']; simpl; [|done].
  by destruct (read_response _ _ _ _).
Qed.

(** The good case of a 200 answer: one entry, keyed by the whole blob. *)
Lemma read_response_200 url res size :
  StatusCode res = 200 -> BodyErr res = None ->
  ParseInt (Header_Get (RespHeader res) "Content-Length") = (size, None) ->
  len (Body res) = size ->
  read_response env url res ∅ =
    (Some {[ {| b := 0; e := sub64 size 1 |} := Body res ]}, None).
Proof.
  intros Hcode Herr Hparse Hlen. unfold read_response.
  rewrite Hcode. simpl. rewrite Herr, Hparse.
  rewrite bool_decide_false by (intros Hne; by apply Hne).
  by rewrite insert_empty.
Qed.

(** A 200 answer whose body is not as long as [Content-Length] says:
    the error handed to [Wrapf] is that of the successful [ParseInt],
    nil, so no error comes back. *)
Lemma read_response_200_mismatch url res size :
  StatusCode res = 200 -> BodyErr res = None ->
  ParseInt (Header_Get (RespHeader res) "Content-Length") = (size, None) ->
  len (Body res) <> size ->
  read_response env url res ∅ = (None, None).
Proof.
  intros Hcode Herr Hparse Hlen. unfold read_response.
  rewrite Hcode. simpl. rewrite Herr, Hparse.
  by rewrite bool_decide_true.
Qed.

End Fetch.
End FetchProps.

(** ** The properties on concrete layers and networks *)
Module Scenarios.
Import Go Reader Fixtures ReaderProps PrefetchProps.

Lemma file_b_chunks ce : chunk_of file_b ce -> ce = chunk_b0 \/ ce = chunk_b1.
Proof.
  intros [off Hoff]. simpl in Hoff.
  destruct (bool_decide (off < 4)); [left; congruence|].
  destruct (bool_decide (off < 8)); [right; congruence|discriminate].
Qed.

Lemma file_b_unique : unique_ids plain_id file_b.
Proof.
  intros ce ce' [->| ->]%file_b_chunks [->| ->]%file_b_chunks; try done;
    vm_compute; discriminate.
Qed.

Lemma file_b_served : served file_b.
Proof.
  intros ce err [->| ->]%file_b_chunks; vm_compute; discriminate.
Qed.

Lemma file_b_contract : toc_contract file_b.
Proof.
  intros off ce Hoff Hce. simpl in Hce.
  repeat case_bool_decide; simplify_eq; simpl; lia.
Qed.

Lemma empty_cache_ok : cache_ok plain_id file_b empty_cache.
Proof. intros ce data _. unfold empty_cache; simpl. by rewrite lookup_empty. Qed.

Lemma warm_cache_ok : cache_ok plain_id file_b warm_cache.
Proof.
  intros ce data [->| ->]%file_b_chunks; vm_compute; [discriminate|].
  by intros [= <-].
Qed.

(** Reading the whole of [b] into an empty cache. *)
Example ReadAt_two_chunks :
  let run := ReadAt plain_id 9 file_b empty_cache (replicate 8 x00) 0 in
  run.1 = Returned 8 None /\ p run.2 = bytes_b /\
  cache run.2 = <[ id_b1 := [x65; x66; x67; x68] ]> half_cache.
Proof. by vm_compute. Qed.

Lemma no_cache_ok : cache_ok plain_id file_b no_cache.
Proof. intros ce data _. simpl. discriminate. Qed.

(** A cold cache (two misses) against a warm one (a miss, then a hit). *)
Lemma ReadAt_cache_transparent_witness :
  unique_ids plain_id file_b /\ served file_b /\
  cache_ok plain_id file_b empty_cache /\ cache_ok plain_id file_b warm_cache /\
  (ReadAt plain_id 9 file_b empty_cache (replicate 8 x00) 0).1 =
    (ReadAt plain_id 9 file_b warm_cache (replicate 8 x00) 0).1 /\
  p (ReadAt plain_id 9 file_b empty_cache (replicate 8 x00) 0).2 =
    p (ReadAt plain_id 9 file_b warm_cache (replicate 8 x00) 0).2.
Proof.
  split; [exact file_b_unique|]. split; [exact file_b_served|].
  split; [exact empty_cache_ok|]. split; [exact warm_cache_ok|].
  exact (ReadAt_cache_transparent plain_id file_b file_b_unique file_b_served
           9 empty_cache warm_cache (replicate 8 x00) 0 empty_cache_ok warm_cache_ok).
Defined.

(** With no cache, every read of [b] is the read from the section reader. *)
Lemma ReadAt_without_cache (c : gmap string (list byte)) fuel buf offset :
  cache_ok plain_id file_b c ->
  (ReadAt plain_id fuel file_b c buf offset).1 =
    (ReadAt plain_id fuel file_b no_cache buf offset).1 /\
  p (ReadAt plain_id fuel file_b c buf offset).2 =
    p (ReadAt plain_id fuel file_b no_cache buf offset).2.
Proof.
  intros Hok. unfold ReadAt.
  by apply (ReadAt_loop_transparent plain_id file_b file_b_unique file_b_served);
    simpl; try apply no_cache_ok.
Qed.

(** C2, as stated, fails: with room for two bytes the first iteration on
    [b] finds a chunk of four bytes and advances [nr] by two. *)
Lemma ReadAt_iter_advance_counterexample :
  let st := {| p := [x00; x00]; nr := 0; cache := empty_cache |} in
  exists st',
    r_ChunkEntryForOffset (r file_b) (name file_b) (add64 0 (nr st)) = Some chunk_b0 /\
    ReadAt_iter plain_id file_b 0 st = Next 2 st' /\
    nr st' = 2 /\
    nr st + ChunkSize chunk_b0 = 4.
Proof. eexists. by vm_compute. Qed.

Lemma ReadAt_iter_advances_by_copied_witness :
  let st := {| p := [x00; x00]; nr := 0; cache := empty_cache |} in
  let st' := {| p := [x61; x62]; nr := 2;
                cache := half_cache |} in
  nr st' = nr st + 2 /\
  2 = Z.min (len (p st) - nr st)
        (ChunkSize chunk_b0 - sub64 (add64 0 (nr st)) (ChunkOffset chunk_b0)) /\
  0 <= 2 <= ChunkSize chunk_b0.
Proof.
  intros st st'.
  apply (ReadAt_iter_advances_by_copied plain_id file_b 0 st st' 2 chunk_b0).
  - vm_compute. split; [discriminate|reflexivity].
  - reflexivity.
  - vm_compute. reflexivity.
Defined.

(** A read that runs past the end of [b]: its last two bytes, no error. *)
Lemma ReadAt_returns_bytes_copied_witness :
  let buf := replicate 20 x00 in
  let run := ReadAt plain_id 21 file_b empty_cache buf 6 in
  run.1 = Returned 2 None /\
  concat (copied plain_id 21 file_b 6 {| p := buf; nr := 0; cache := empty_cache |}) =
    [x67; x68] /\
  ((@None error = None /\
    2 = total (copies plain_id 21 file_b 6 {| p := buf; nr := 0; cache := empty_cache |}) /\
    0 <= 2 <= len buf /\
    length (p run.2) = length buf /\
    take (Z.to_nat 2) (p run.2) =
      concat (copied plain_id 21 file_b 6 {| p := buf; nr := 0; cache := empty_cache |}) /\
    drop (Z.to_nat 2) (p run.2) = drop (Z.to_nat 2) buf) \/
   (2 = 0 /\ exists ce e,
       chunk_of file_b ce /\
       (ra file_b (len (make (ChunkSize ce))) (ChunkOffset ce)).2 = Some e /\
       is_EOF e = false /\
       None = Some (Wrapped e "failed to read data" []))).
Proof.
  intros buf run. split; [vm_compute; reflexivity|].
  split; [vm_compute; reflexivity|].
  apply (ReadAt_returns_bytes_copied plain_id 21 file_b empty_cache buf 6 2 None run.2).
  vm_compute. reflexivity.
Defined.


Lemma ReadAt_total_b buf offset :
  0 <= offset -> offset + len buf < 2 ^ 63 ->
  exists n err st',
    ReadAt plain_id (S (length buf)) file_b empty_cache buf offset = (Returned n err, st').
Proof. apply ReadAt_total, file_b_contract. Qed.


Example chunk_loop_b_half_cached :
  chunk_loop plain_id 3 toc_b entry_b chunk_b0
    {| c_nr := 0; c_tr := tar_at_b; c_cache := half_cache |} =
  (EReturned None,
   {| c_nr := 8;
      c_tr := {| cur := [x65; x66; x67; x68]; cur_short := false;
                 pending := []; tail_err := EOF |};
      c_cache := <[ id_b1 := [x61; x62; x63; x64] ]> half_cache |}).
Proof. by vm_compute. Qed.

(** The same through [CacheTarGzWithReader], on the archive of [b]. *)
Example CacheTarGzWithReader_b_half_cached :
  CacheTarGzWithReader plain_id gunzip_b 5
    {| gr_r := toc_b; gr_cache := half_cache; prefetchInProgress := false |} [] =
  (EReturned None,
   {| gr_r := toc_b; gr_cache := <[ id_b1 := [x61; x62; x63; x64] ]> half_cache;
      prefetchInProgress := false |}).
Proof. by vm_compute. Qed.

Lemma PrefetchWithReader_landmarks_witness :
  PrefetchWithReader plain_id no_gzip 5 (reader_of toc_no_prefetch) layer 400 =
    (EReturned None, reader_of toc_no_prefetch, layer) /\
  PrefetchWithReader plain_id no_gzip 5 (reader_of (toc_prefetch 2000)) layer 400 =
    (EReturned (Some (Errorf "invalid landmark offset %d is larger than layer size %d"
                        [FInt 2000; FInt 1000])),
     reader_of (toc_prefetch 2000), layer) /\
  PrefetchWithReader plain_id no_gzip 5 (reader_of (toc_prefetch 300)) layer 400 =
    prefetch_done (fetch_and_cache plain_id no_gzip 5
                     (in_progress (reader_of (toc_prefetch 300)) true) layer 300) /\
  PrefetchWithReader plain_id no_gzip 5 (reader_of toc_b) layer 5000 =
    prefetch_done (fetch_and_cache plain_id no_gzip 5
                     (in_progress (reader_of toc_b) true) layer 1000).
Proof.
  split; [|split; [|split]].
  - destruct (PrefetchWithReader_landmarks plain_id no_gzip 5
                (reader_of toc_no_prefetch) layer 400) as (Hno & _ & _).
    exact (Hno (landmark NoPrefetchLandmark 300) eq_refl).
  - destruct (PrefetchWithReader_landmarks plain_id no_gzip 5
                (reader_of (toc_prefetch 2000)) layer 400) as (_ & Hmark & _).
    destruct (Hmark (landmark PrefetchLandmark 2000) eq_refl eq_refl) as [Hbad _].
    apply Hbad. reflexivity.
  - destruct (PrefetchWithReader_landmarks plain_id no_gzip 5
                (reader_of (toc_prefetch 300)) layer 400) as (_ & Hmark & _).
    destruct (Hmark (landmark PrefetchLandmark 300) eq_refl eq_refl) as [_ Hgood].
    apply Hgood. discriminate.
  - destruct (PrefetchWithReader_landmarks plain_id no_gzip 5
                (reader_of toc_b) layer 5000) as (_ & _ & Hnone).
    exact (Hnone eq_refl eq_refl).
Defined.

End Scenarios.

Module RemoteScenarios.
Import Go Remote RemoteFixtures RemoteProps FetchProps.

(** Mirror failover: [mirror-a] answers 500, the malformed mirror is
    skipped, [mirror-b] serves the blob. *)
Example resolve_failover :
  (resolve (network only_mirror_b "1000" []) mirrors image layer_digest fresh).1 =
    (Some {| f_ref := image; f_digest := layer_digest;
             f_nref := Some {| ref_Name := "mirror-b/library/app";
                               ref_String := "mirror-b/library/app";
                               ref_Scheme := "https";
                               ref_RegistryStr := "mirror-b";
                               ref_RepositoryStr := "library/app" |};
             f_url := "https://mirror-b/v2/library/app/blobs/sha256:abc";
             f_tr := Some "mirror-b" |}, 1000, None).
Proof. by vm_compute. Qed.

(** Every registry down: the error names the four hosts tried. *)
Example resolve_all_down :
  match (resolve (network all_down "1000" []) mirrors image layer_digest fresh).1 with
  | (None, 0, Some (Wrapped chain "cannot resolve ref %q (%q)" _)) =>
    map context_host (contexts chain) = ["d.example"; "mirror-b"; "bad/host"; "mirror-a"]
  | _ => False
  end.
Proof. by vm_compute. Qed.

Lemma resolve_first_success_witness :
  let env := network only_mirror_b "1000" [] in
  let named := {| Domain := "d.example"; Path := "library/app" |} in
  ParseDockerRef env image = inl named /\
  hosts_of mirrors named =
    [ {| Host := "mirror-a"; Insecure := false |};
      {| Host := "bad/host"; Insecure := false |};
      {| Host := "mirror-b"; Insecure := false |};
      {| Host := "d.example"; Insecure := false |} ] /\
  exists res s',
    first_success env named layer_digest (hosts_of mirrors named) fresh res s'.
Proof.
  intros env named. split; [reflexivity|].
  destruct (resolve_first_success env mirrors image layer_digest named fresh eq_refl)
    as (Hhosts & Hsome & _).
  split; [|exact Hsome].
  rewrite Hhosts. vm_compute. reflexivity.
Defined.

(** The layer grew to 1001 bytes: [Refresh] refuses it. The layer is as
    it was: [Refresh], called at time 77, installs the new fetcher. *)
Lemma Refresh_size_check_witness :
  (exists s',
      Refresh (network only_mirror_b "1001" []) mirrors 77 (PtrBlob blob_1000) fresh =
        (Refreshed (PtrBlob blob_1000)
           (Some (Errorf "Invalid size of new blob %d; want %d" [FInt 1001; FInt 1000])),
         s')) /\
  (exists new s',
      Refresh (network only_mirror_b "1000" []) mirrors 77 (PtrBlob blob_1000) fresh =
        (Refreshed
           (PtrBlob {| b_fetcher := Some new; b_size := 1000; b_chunkSize := 50000;
                       b_lastCheck := 77; b_checkInterval := 60 * Second |}) None, s') /\
      f_url new = "https://mirror-b/v2/library/app/blobs/sha256:abc"%string).
Proof.
  split.
  - eexists.
    refine (proj1 (Refresh_size_check (network only_mirror_b "1001" []) mirrors 77
                     blob_1000 old_fetcher _ 1001 fresh _ eq_refl _) _).
    + vm_compute. reflexivity.
    + vm_compute. discriminate.
  - eexists _, _. split.
    + refine (proj2 (Refresh_size_check (network only_mirror_b "1000" []) mirrors 77
                       blob_1000 old_fetcher (Some _) 1000 fresh _ eq_refl _) _).
      * vm_compute. reflexivity.
      * reflexivity.
    + reflexivity.
Defined.

Lemma fetch_range_request_witness :
  let env := network all_up "100" (replicate 100 x00) in
  let requests := [ {| b := 10; e := 19 |}; {| b := 40; e := 49 |} ] in
  let req := fetch_request old_fetcher.(f_url) (WithTimeout 30) requests in
  Header_Get (Header req) "Range" = "bytes=0-0,10-19,40-49"%string /\
  (fetch env old_fetcher requests [] []).2 = [req].
Proof.
  intros env requests req.
  destruct (fetch_range_request env old_fetcher requests [] [] "mirror-b" eq_refl eq_refl)
    as (_ & _ & Hrange & _ & Hworld & _).
  split.
  - etrans; [exact Hrange|]. vm_compute. reflexivity.
  - etrans; [exact Hworld|]. vm_compute. reflexivity.
Defined.

(** C7: a 200 answer announcing 100 bytes with a body of 99. [fetch]
    returns a nil map and a nil error: the length check wraps the nil
    error left by the successful [ParseInt]. *)
Theorem fetch_200_short_body_returns_no_error :
  (fetch (network all_up "100" (replicate 99 x00)) old_fetcher
     [ {| b := 10; e := 19 |}; {| b := 40; e := 49 |} ] [] []).1 = Fetched None None.
Proof. by vm_compute. Qed.

(** The same answer with the 100 bytes it announces. *)
Example fetch_200_whole_blob :
  (fetch (network all_up "100" (replicate 100 x00)) old_fetcher
     [ {| b := 10; e := 19 |}; {| b := 40; e := 49 |} ] [] []).1 =
  Fetched (Some {[ {| b := 0; e := 99 |} := replicate 100 x00 ]}) None.
Proof. by vm_compute. Qed.

End RemoteScenarios.

(** ** Further properties of package reader *)
Module ReaderExtra.
Import Go Reader ReaderMore ReaderProps PrefetchProps.

Lemma take_plus {A} (l : list A) (a b : nat) :
  take (a + b) l = take a l ++ take b (drop a l).
Proof.
  revert l. induction a as [|a IH]; intros l; simpl; [by rewrite drop_0|].
  destruct l as [|x l]; simpl; [by rewrite take_nil|]. by rewrite IH.
Qed.

Lemma take_drop_take {A} (l : list A) (n i s : nat) :
  (n + i <= s)%nat -> take n (drop i (take s l)) = take n (drop i l).
Proof.
  intros Hle. revert l i s Hle. induction n as [|n IH]; intros l i s Hle; [done|].
  revert l s Hle. induction i as [|i IHi]; intros l s Hle.
  - rewrite !drop_0. rewrite take_take. f_equal. lia.
  - destruct l as [|x l]; [by rewrite take_nil|].
    destruct s as [|s]; [lia|]. simpl. apply IHi. lia.
Qed.

Section Loop.
Context {C : Type} `{BlobCache C}.
Variable sha256hex : string -> string.

(** The buffer after a successful [copy]. *)
Lemma copy_chunk_result offset ce data (st st' : @rstate C) n :
  0 <= nr st <= len (p st) ->
  copy_chunk offset ce data st = Next n st' ->
  let i := sub64 (add64 offset (nr st)) (ChunkOffset ce) in
  p st' = take (Z.to_nat (nr st)) (p st) ++
          take (Z.to_nat n) (drop (Z.to_nat i) data) ++
          drop (Z.to_nat (nr st + n)) (p st).
Proof.
  intros Hnr. unfold copy_chunk. cbv zeta.
  set (i := sub64 _ _). case_bool_decide as Hi; [|discriminate].
  unfold copy. intros [= <- <-]; simpl.
  rewrite Nat2Z.id. f_equal. f_equal.
  rewrite drop_drop. f_equal. rewrite !length_drop. unfold len in *. lia.
Qed.

(** Under the contract of [ChunkEntryForOffset] the call returns: it
    neither panics nor runs on, and the count is within the buffer. *)
Lemma ReadAt_loop_returns fuel sf offset (st : @rstate C) :
  toc_contract sf ->
  0 <= offset -> offset + len (p st) < 2 ^ 63 ->
  0 <= nr st <= len (p st) ->
  (Z.to_nat (len (p st) - nr st) < fuel)%nat ->
  exists n err st',
    ReadAt_loop sha256hex fuel sf offset st = (Returned n err, st') /\
    0 <= n <= len (p st) /\ length (p st') = length (p st).
Proof.
  intros Htoc Hoff Hmax Hnr Hfuel.
  destruct (ReadAt_loop_total sha256hex fuel sf offset st Htoc Hoff Hmax Hnr Hfuel)
    as (n & err & st' & Hrun).
  exists n, err, st'. split; [done|].
  destruct (ReadAt_loop_inv sha256hex fuel sf offset st st' _ Hnr Hrun)
    as (Hnr' & Hlen & _ & _ & _ & Hret).
  split; [|done].
  destruct (Hret n err eq_refl) as [[_ ->]|[-> _]]; unfold len in *; lia.
Qed.

(** X1: when [ChunkEntryForOffset] answers, for an offset that is not
    negative, only entries that contain it, and every chunk is of a size
    that [make] accepts, [ReadAt] on a buffer of [len(buf)] bytes
    returns within [len(buf)] iterations: it does not panic on a slice
    bound and does not loop; the count it returns is between 0 and
    [len(buf)] and the buffer keeps its length. *)
Theorem ReadAt_returns_under_contract sf (c : C) buf offset :
  toc_contract sf -> allocatable sf ->
  0 <= offset -> offset + len buf < 2 ^ 63 ->
  exists n err st',
    ReadAt sha256hex (S (length buf)) sf c buf offset = (Returned n err, st') /\
    0 <= n <= len buf /\ length (p st') = length buf.
Proof.
  intros Htoc _ Hoff Hmax.
  apply (ReadAt_loop_returns (S (length buf)) sf offset
           {| p := buf; nr := 0; cache := c |}); simpl; try done; unfold len; lia.
Qed.

End Loop.

Section Content.
Context {C : Type} `{LawfulCache C}.
Variable sha256hex : string -> string.
Variable sf : file.
Variable content : list byte.
Hypothesis Hcontract : toc_contract sf.
Hypothesis Hunique : unique_ids sha256hex sf.
Hypothesis Hbacked : backed_by sf content.

Lemma ReadAt_loop_content fuel offset (st : @rstate C) :
  0 <= offset -> offset + len (p st) < 2 ^ 63 ->
  0 <= nr st <= len (p st) ->
  cache_ok sha256hex sf (cache st) ->
  take (Z.to_nat (nr st)) (p st) =
    take (Z.to_nat (nr st)) (drop (Z.to_nat offset) content) ->
  (Z.to_nat (len (p st) - nr st) < fuel)%nat ->
  exists st',
    ReadAt_loop sha256hex fuel sf offset st = (Returned (nr st') None, st') /\
    nr st <= nr st' <= len (p st') /\
    length (p st') = length (p st) /\
    take (Z.to_nat (nr st')) (p st') =
      take (Z.to_nat (nr st')) (drop (Z.to_nat offset) content) /\
    drop (Z.to_nat (nr st')) (p st') = drop (Z.to_nat (nr st')) (p st) /\
    cache_ok sha256hex sf (cache st') /\
    (nr st' = len (p st') \/
     r_ChunkEntryForOffset (r sf) (name sf) (offset + nr st') = None).
Proof.
  destruct Hbacked as [Hserved Hbytes].
  intros Hoff. revert st.
  induction fuel as [|fuel IH]; intros st Hmax Hnr Hok Hinv Hfuel; [lia|]. simpl.
  assert (Hfin : forall stop : nr st = len (p st) \/
                   r_ChunkEntryForOffset (r sf) (name sf) (offset + nr st) = None,
    exists st',
      ReadAt_finish st = (Returned (nr st') None, st') /\
      nr st <= nr st' <= len (p st') /\
      length (p st') = length (p st) /\
      take (Z.to_nat (nr st')) (p st') =
        take (Z.to_nat (nr st')) (drop (Z.to_nat offset) content) /\
      drop (Z.to_nat (nr st')) (p st') = drop (Z.to_nat (nr st')) (p st) /\
      cache_ok sha256hex sf (cache st') /\
      (nr st' = len (p st') \/
       r_ChunkEntryForOffset (r sf) (name sf) (offset + nr st') = None)).
  { intros stop. exists st. unfold ReadAt_finish. rewrite bool_decide_true by done.
    split. { do 2 f_equal. unfold len in *. rewrite length_take. lia. }
    repeat split; try done; lia. }
  case_bool_decide as Hlt; [|apply Hfin; left; lia].
  destruct (ReadAt_iter_normal sha256hex sf Hunique Hserved offset st Hok)
    as (c' & Hok' & ->).
  unfold add64. rewrite wrap64_id by (unfold len in *; lia).
  destruct (r_ChunkEntryForOffset _ _ _) as [ce|] eqn:Hce; [|apply Hfin; by right].
  assert (Hcursor : 0 <= offset + nr st) by lia.
  destruct (Hcontract _ _ Hcursor Hce) as [Hlo Hhi].
  rewrite bool_decide_false by lia.
  assert (Hchunk : chunk_of sf ce) by by eexists.
  assert (Hlen : len (chunk_bytes sf ce) = ChunkSize ce).
  { unfold chunk_bytes. apply len_fill_make. lia. }
  set (st0 := {| p := p st; nr := nr st; cache := c' |}).
  assert (Hi : sub64 (add64 offset (nr st0)) (ChunkOffset ce)
               = offset + nr st - ChunkOffset ce).
  { unfold add64, sub64; simpl.
    rewrite (wrap64_id (offset + nr st)) by (unfold len in *; lia).
    rewrite wrap64_id by (unfold len in *; lia). done. }
  destruct (copy_chunk offset ce (chunk_bytes sf ce) st0) as [n st1| | |] eqn:Hcopy.
  2-4: exfalso; revert Hcopy; unfold copy_chunk; rewrite Hi, Hlen;
       rewrite bool_decide_true by lia; by destruct (copy _ _).
  pose proof (copy_chunk_bounds offset ce _ st0 st1 n Hnr Hcopy) as Hb.
  pose proof (copy_chunk_result offset ce _ st0 st1 n Hnr Hcopy) as Hp.
  cbv zeta in Hb, Hp. rewrite Hi in Hb, Hp. rewrite Hlen in Hb. simpl in Hb, Hp.
  destruct Hb as (_ & Hn & Hnr1 & Hlen1 & Htake1 & Hdrop1 & Hc1).
  assert (Hpos : 0 < n) by lia.
  destruct (IH st1) as (st' & Hrun & Hnr' & Hlen' & Htake' & Hdrop' & Hokf & Hstop).
  - unfold len in *. rewrite Hlen1. lia.
  - unfold len in *. rewrite Hlen1. lia.
  - by rewrite Hc1.
  - rewrite Hp, Hnr1.
    rewrite take_app_ge by (rewrite length_take; unfold len in *; lia).
    rewrite length_take.
    replace (Z.to_nat (nr st + n) - Z.to_nat (nr st) `min` length (p st))%nat
      with (Z.to_nat n) by (unfold len in *; lia).
    rewrite take_app_le.
    2:{ rewrite length_take, length_drop. unfold len in Hlen. lia. }
    rewrite take_take. replace (Z.to_nat n `min` Z.to_nat n)%nat with (Z.to_nat n) by lia.
    replace (Z.to_nat (nr st + n)) with (Z.to_nat (nr st) + Z.to_nat n)%nat by lia.
    rewrite take_plus, Hinv. f_equal.
    rewrite (Hbytes ce Hchunk), take_drop_take by lia.
    rewrite !drop_drop. do 2 f_equal. lia.
  - unfold len in *. rewrite Hlen1. lia.
  - exists st'. split; [done|]. split; [lia|]. split; [congruence|].
    split; [done|]. split; [|done].
    rewrite Hdrop'.
    replace (Z.to_nat (nr st')) with
      (Z.to_nat (nr st1) + (Z.to_nat (nr st') - Z.to_nat (nr st1)))%nat by lia.
    rewrite <- !drop_drop. by rewrite Hdrop1.
Qed.

(** X2: for a file whose section reader delivers the bytes of [content],
    whose chunk entries contain the offsets, none negative, they are
    found for, whose chunks are of a size that [make] accepts and whose
    chunk IDs tell its chunks apart, [ReadAt] against a cache that holds
    nothing but chunks' bytes returns [(n, nil)], the first [n] bytes of
    the buffer are the [n] bytes of [content] from [offset] on, the rest
    of the buffer is as it was, and the read stopped because the buffer
    is full or because no chunk entry is found at [offset + n]. *)
Theorem ReadAt_reads_content (c : C) buf offset :
  allocatable sf ->
  0 <= offset -> offset + len buf < 2 ^ 63 ->
  cache_ok sha256hex sf c ->
  exists n st',
    ReadAt sha256hex (S (length buf)) sf c buf offset = (Returned n None, st') /\
    0 <= n <= len buf /\
    take (Z.to_nat n) (p st') = take (Z.to_nat n) (drop (Z.to_nat offset) content) /\
    drop (Z.to_nat n) (p st') = drop (Z.to_nat n) buf /\
    (n = len buf \/ r_ChunkEntryForOffset (r sf) (name sf) (offset + n) = None).
Proof.
  intros _ Hoff Hmax Hok.
  destruct (ReadAt_loop_content (S (length buf)) offset
              {| p := buf; nr := 0; cache := c |})
    as (st' & Hrun & Hnr & Hlen & Htake & Hdrop & _ & Hstop);
    simpl; try done; try (unfold len; lia).
  simpl in *. exists (nr st'), st'. split; [done|].
  unfold len in *. rewrite Hlen in Hnr, Hstop. repeat split; try done; lia.
Qed.

End Content.

Section CacheInvariant.
Context {C : Type} `{LawfulCache C}.
Variable sha256hex : string -> string.
Variable sf : file.
Hypothesis Hunique : unique_ids sha256hex sf.

Lemma copy_chunk_cache offset ce data (st : @rstate C) :
  match copy_chunk offset ce data st with
  | Next _ st' | Return _ _ st' | Panic st' => cache st' = cache st
  | Break => True
  end.
Proof. unfold copy_chunk. case_bool_decide; [|done]. by destruct (copy _ _). Qed.

Lemma ReadAt_iter_cache_ok offset (st : @rstate C) :
  cache_ok sha256hex sf (cache st) ->
  match ReadAt_iter sha256hex sf offset st with
  | Next _ st' | Return _ _ st' | Panic st' => cache_ok sha256hex sf (cache st')
  | Break => True
  end.
Proof.
  intros Hok. unfold ReadAt_iter.
  destruct (r_ChunkEntryForOffset _ _ _) as [ce|] eqn:Hce; [|done].
  assert (Hchunk : chunk_of sf ce) by by eexists.
  assert (Hcc : forall data c',
    cache_ok sha256hex sf c' ->
    match copy_chunk offset ce data {| p := p st; nr := nr st; cache := c' |} with
    | Next _ st' | Return _ _ st' | Panic st' => cache_ok sha256hex sf (cache st')
    | Break => True
    end).
  { intros data c' Hc'.
    pose proof (copy_chunk_cache offset ce data {| p := p st; nr := nr st; cache := c' |}) as Hcp.
    destruct (copy_chunk _ _ _ _); simpl in Hcp; try done; by rewrite Hcp. }
  destruct (probe _ _ _) as [data|].
  { pose proof (copy_chunk_cache offset ce data st) as Hcp.
    destruct (copy_chunk _ _ _ _); simpl in Hcp; try done; by rewrite Hcp. }
  case_bool_decide; [done|].
  pose proof (cache_ok_Add sha256hex sf Hunique (cache st) ce Hchunk Hok) as Hadd.
  unfold chunk_bytes, chunk_id in Hadd. cbv zeta in Hadd.
  destruct (ra sf _ _) as [delivered [e|]]; simpl in Hadd.
  - destruct (is_EOF e); [by apply Hcc|done].
  - by apply Hcc.
Qed.

Lemma ReadAt_loop_cache_ok fuel offset (st : @rstate C) :
  cache_ok sha256hex sf (cache st) ->
  cache_ok sha256hex sf (cache (ReadAt_loop sha256hex fuel sf offset st).2).
Proof.
  revert st. induction fuel as [|fuel IH]; intros st Hok; simpl; [done|].
  assert (Hfin : cache_ok sha256hex sf (cache (ReadAt_finish st).2)).
  { unfold ReadAt_finish. by case_bool_decide. }
  case_bool_decide; [|done].
  pose proof (ReadAt_iter_cache_ok offset st Hok) as Hit.
  destruct (ReadAt_iter _ _ _ _) as [n st1| |n err st1|st1]; simpl.
  - by apply IH.
  - exact Hfin.
  - exact Hit.
  - exact Hit.
Qed.

(** X3: [ReadAt] keeps the cache right. If every entry stored under a
    chunk ID of the file holds that chunk's bytes before the call, the
    same is true after it, however the call ends: a chunk is added only
    with the bytes a read of it delivered. *)
Theorem ReadAt_keeps_cache_right fuel (c : C) buf offset :
  cache_ok sha256hex sf c ->
  cache_ok sha256hex sf (cache (ReadAt sha256hex fuel sf c buf offset).2).
Proof. intros Hok. by apply ReadAt_loop_cache_ok. Qed.

End CacheInvariant.
#[export] Instance MapCache_keeping : KeepingCache (gmap string (list byte)).
Proof.
  split; intros c id data; unfold Fetch, Add; simpl.
  - apply lookup_insert_eq.
  - intros id' Hne. by apply lookup_insert_ne.
Qed.

Section Again.
Context {C : Type} `{KeepingCache C}.
Variable sha256hex : string -> string.
Variable sf : file.
Hypothesis Hunique : unique_ids sha256hex sf.

Lemma copy_chunk_view offset ce data (st st1 st2 : @rstate C) n :
  copy_chunk offset ce data st = Next n st1 ->
  p st2 = p st -> nr st2 = nr st ->
  copy_chunk offset ce data st2 =
    Next n {| p := p st1; nr := nr st1; cache := cache st2 |}.
Proof.
  unfold copy_chunk. intros Hc Hp Hn. rewrite Hp, Hn.
  case_bool_decide; [|discriminate].
  destruct (copy _ _) as [dst m]. by injection Hc as <- <-.
Qed.

(** An entry that hits for a chunk of the file stays as it is. *)
Lemma ReadAt_iter_keeps offset (st : @rstate C) ce d :
  chunk_of sf ce ->
  Fetch (cache st) (chunk_id sha256hex sf ce) = Some d -> len d = ChunkSize ce ->
  match ReadAt_iter sha256hex sf offset st with
  | Next _ st' | Return _ _ st' | Panic st' =>
    Fetch (cache st') (chunk_id sha256hex sf ce) = Some d
  | Break => True
  end.
Proof.
  intros Hchunk Hd Hlen. unfold ReadAt_iter.
  destruct (r_ChunkEntryForOffset _ _ _) as [ce2|] eqn:Hce2; [|done].
  assert (Hchunk2 : chunk_of sf ce2) by by eexists.
  assert (Hcc : forall data (s : @rstate C),
    Fetch (cache s) (chunk_id sha256hex sf ce) = Some d ->
    match copy_chunk offset ce2 data s with
    | Next _ st' | Return _ _ st' | Panic st' =>
      Fetch (cache st') (chunk_id sha256hex sf ce) = Some d
    | Break => True
    end).
  { intros data s Hs. pose proof (copy_chunk_cache offset ce2 data s) as Hcp.
    destruct (copy_chunk _ _ _ _); simpl in Hcp; try done; by rewrite Hcp. }
  destruct (probe _ _ _) as [data|] eqn:Hprobe; [by apply Hcc|].
  case_bool_decide; [done|].
  assert (Hne : genID sha256hex (digest sf) (ChunkOffset ce2) (ChunkSize ce2)
                <> chunk_id sha256hex sf ce).
  { intros Hid. destruct (Hunique ce2 ce Hchunk2 Hchunk Hid) as [_ Hsize].
    unfold probe in Hprobe. simpl in Hprobe. rewrite Hid, Hd in Hprobe.
    rewrite bool_decide_true in Hprobe by congruence. discriminate. }
  destruct (ra sf _ _) as [delivered [e|]].
  - destruct (is_EOF e); [|done].
    apply Hcc. simpl. by rewrite fetch_kept.
  - apply Hcc. simpl. by rewrite fetch_kept.
Qed.

Lemma ReadAt_loop_keeps fuel offset (st : @rstate C) ce d :
  chunk_of sf ce ->
  Fetch (cache st) (chunk_id sha256hex sf ce) = Some d -> len d = ChunkSize ce ->
  Fetch (cache (ReadAt_loop sha256hex fuel sf offset st).2) (chunk_id sha256hex sf ce) = Some d.
Proof.
  intros Hchunk. revert st. induction fuel as [|fuel IH]; intros st Hd Hlen; simpl; [done|].
  assert (Hfin : Fetch (cache (ReadAt_finish st).2) (chunk_id sha256hex sf ce) = Some d).
  { unfold ReadAt_finish. by case_bool_decide. }
  case_bool_decide; [|done].
  pose proof (ReadAt_iter_keeps offset st ce d Hchunk Hd Hlen) as Hit.
  destruct (ReadAt_iter _ _ _ _) as [n st1| |n err st1|st1]; simpl; try done.
  by apply IH.
Qed.

(** An iteration that runs to its end copied from a buffer that the
    cache holds, with the chunk's length, when the iteration is over. *)
Lemma ReadAt_iter_source offset (st st1 : @rstate C) n :
  ReadAt_iter sha256hex sf offset st = Next n st1 ->
  exists ce d,
    r_ChunkEntryForOffset (r sf) (name sf) (add64 offset (nr st)) = Some ce /\
    Fetch (cache st1) (chunk_id sha256hex sf ce) = Some d /\ len d = ChunkSize ce /\
    forall st2 : @rstate C, p st2 = p st -> nr st2 = nr st ->
      copy_chunk offset ce d st2 =
        Next n {| p := p st1; nr := nr st1; cache := cache st2 |}.
Proof.
  unfold ReadAt_iter.
  destruct (r_ChunkEntryForOffset _ _ _) as [ce|] eqn:Hce; [|discriminate].
  assert (Hmiss : forall data,
    len data = ChunkSize ce ->
    copy_chunk offset ce data
      {| p := p st; nr := nr st;
         cache := Add (cache st)
                    (genID sha256hex (digest sf) (ChunkOffset ce) (ChunkSize ce)) data |}
      = Next n st1 ->
    exists ce0 d,
      Some ce = Some ce0 /\
      Fetch (cache st1) (chunk_id sha256hex sf ce0) = Some d /\ len d = ChunkSize ce0 /\
      forall st2 : @rstate C, p st2 = p st -> nr st2 = nr st ->
        copy_chunk offset ce0 d st2 =
          Next n {| p := p st1; nr := nr st1; cache := cache st2 |}).
  { intros data Hlen Hc. exists ce, data. split; [done|].
    pose proof (copy_chunk_cache offset ce data
                  {| p := p st; nr := nr st;
                     cache := Add (cache st)
                       (genID sha256hex (digest sf) (ChunkOffset ce) (ChunkSize ce)) data |})
      as Hcp.
    rewrite Hc in Hcp. simpl in Hcp.
    split. { rewrite Hcp. unfold chunk_id. by rewrite fetch_added. }
    split; [done|].
    intros st2 Hp Hn. by apply (copy_chunk_view _ _ _ _ _ _ _ Hc). }
  unfold probe. destruct (Fetch (cache st) _) as [data|] eqn:Hf.
  - case_bool_decide as Hlen.
    + intros Hc. exists ce, data. split; [done|].
      pose proof (copy_chunk_cache offset ce data st) as Hcp.
      rewrite Hc in Hcp. split; [by rewrite Hcp|]. split; [done|].
      intros st2 Hp Hn. by apply (copy_chunk_view _ _ _ _ _ _ _ Hc).
    + case_bool_decide; [discriminate|].
      destruct (ra sf _ _) as [delivered [e|]].
      * destruct (is_EOF e); [|discriminate]. apply Hmiss, len_fill_make. lia.
      * apply Hmiss, len_fill_make. lia.
  - case_bool_decide; [discriminate|].
    destruct (ra sf _ _) as [delivered [e|]].
    + destruct (is_EOF e); [|discriminate]. apply Hmiss, len_fill_make. lia.
    + apply Hmiss, len_fill_make. lia.
Qed.

Lemma ReadAt_iter_Break offset (st : @rstate C) :
  ReadAt_iter sha256hex sf offset st = Break ->
  r_ChunkEntryForOffset (r sf) (name sf) (add64 offset (nr st)) = None.
Proof.
  unfold ReadAt_iter.
  destruct (r_ChunkEntryForOffset _ _ _) as [ce|]; [|done].
  assert (Hcc : forall data (s : @rstate C), copy_chunk offset ce data s <> Break).
  { intros data s. unfold copy_chunk. case_bool_decide; [|done]. by destruct (copy _ _). }
  destruct (probe _ _ _); [intros Hc; by apply Hcc in Hc|].
  case_bool_decide; [done|].
  destruct (ra sf _ _) as [delivered [e|]]; [destruct (is_EOF e)|]; try done;
    intros Hc; by apply Hcc in Hc.
Qed.

Lemma ReadAt_loop_again fuel offset other (st st' st2 : @rstate C) n :
  ReadAt_loop sha256hex fuel sf offset st = (Returned n None, st') ->
  p st2 = p st -> nr st2 = nr st -> cache st2 = cache st' ->
  ReadAt_loop sha256hex fuel (with_reader sf other) offset st2 = (Returned n None, st').
Proof.
  revert st st2. induction fuel as [|fuel IH]; intros st st2 Hrun Hp Hn Hc; simpl in *.
  { discriminate. }
  assert (Hfin : ReadAt_finish st = (Returned n None, st') ->
                 ReadAt_finish st2 = (Returned n None, st')).
  { unfold ReadAt_finish. rewrite Hp, Hn.
    destruct (bool_decide (0 <= nr st <= len (p st))); [|discriminate].
    intros [= <- <-]. f_equal. destruct st, st2; simpl in *. by subst. }
  rewrite Hp, Hn. case_bool_decide as Hlt; [|by apply Hfin].
  destruct (ReadAt_iter sha256hex sf offset st) as [m st1| |m err st1|st1] eqn:Hit.
  - destruct (ReadAt_iter_source offset st st1 m Hit) as (ce & d & Hce & Hd & Hlen & Hcopy).
    assert (Hchunk : chunk_of sf ce) by by eexists.
    pose proof (ReadAt_loop_keeps fuel offset st1 ce d Hchunk Hd Hlen) as Hkeep.
    rewrite Hrun in Hkeep. simpl in Hkeep.
    unfold ReadAt_iter. simpl. rewrite Hn, Hce.
    unfold probe. simpl. change (genID sha256hex (digest sf) (ChunkOffset ce) (ChunkSize ce))
      with (chunk_id sha256hex sf ce).
    rewrite Hc, Hkeep. rewrite bool_decide_true by done.
    rewrite (Hcopy st2 Hp Hn). by apply (IH st1).
  - apply ReadAt_iter_Break in Hit.
    unfold ReadAt_iter. simpl. rewrite Hn, Hit. by apply Hfin.
  - injection Hrun as -> -> ->.
    apply ReadAt_iter_Return in Hit as (_ & _ & ce & e & _ & _ & _ & Herr). discriminate.
  - discriminate.
Qed.

(** X4: a read repeated against the cache the first one left needs no
    section reader, when the cache keeps what is added. When [ReadAt]
    returned [(n, nil)], the same call on the cache it left returns the
    same count and the same buffer and leaves that cache as it is,
    whatever the section reader would now answer, provided the chunk
    IDs tell the file's chunks apart. *)
Theorem ReadAt_again_from_cache fuel (c : C) buf offset n (st' : @rstate C) other :
  ReadAt sha256hex fuel sf c buf offset = (Returned n None, st') ->
  ReadAt sha256hex fuel (with_reader sf other) (cache st') buf offset =
    (Returned n None, st').
Proof. intros Hrun. by apply (ReadAt_loop_again _ _ _ _ _ _ _ Hrun). Qed.

End Again.
End ReaderExtra.

(** ** Further properties of the prefetcher *)
Module PrefetchExtra.
Import Go Reader ReaderMore ReaderProps PrefetchProps.

Lemma fill_full (data delivered : list byte) :
  length delivered = length data -> fill data delivered = delivered.
Proof.
  intros Hlen. unfold fill. rewrite drop_ge by lia. rewrite app_nil_r.
  by rewrite take_ge by lia.
Qed.

Section ChunkLoop.
Context {C : Type} `{BlobCache C}.
Variable sha256hex : string -> string.

(** X5: when the tar stream stands where [nr] is in the entry's bytes
    [body] and the chunk found for [nr] lies within them, a miss stores
    under the chunk's ID the bytes of [body] at the chunk's offset, and
    leaves the stream where the new [nr] is. *)
Theorem chunk_iter_miss_stores_entry_bytes sr h fe (st st' : @cstate C) ce body :
  r_ChunkEntryForOffset sr (h_Name h) (c_nr st) = Some ce ->
  probe (c_cache st) (genID sha256hex (Digest fe) (ChunkOffset ce) (ChunkSize ce)) ce
    = None ->
  chunk_iter sha256hex sr h fe st = CNext st' ->
  cur (c_tr st) = drop (Z.to_nat (c_nr st)) body ->
  0 <= c_nr st -> c_nr st + ChunkSize ce <= len body -> len body < 2 ^ 63 ->
  c_cache st' =
    Add (c_cache st) (genID sha256hex (Digest fe) (ChunkOffset ce) (ChunkSize ce))
      (take (Z.to_nat (ChunkSize ce)) (drop (Z.to_nat (ChunkOffset ce)) body)) /\
  c_nr st' = ChunkOffset ce + ChunkSize ce /\
  cur (c_tr st') = drop (Z.to_nat (c_nr st')) body.
Proof.
  intros Hce Hmiss Hit Hcur Hnr Hin Hmax.
  destruct (chunk_iter_miss sha256hex sr h fe st st' ce Hce Hmiss Hit)
    as (Hsize & Hoff & Hnr' & Hcur' & _ & Hcache).
  assert (Hnr'' : c_nr st' = ChunkOffset ce + ChunkSize ce).
  { rewrite Hnr', <- Hoff. unfold add64. apply wrap64_id. unfold len in *. lia. }
  split; [|split; [done|]].
  - rewrite Hcache, Hcur, <- Hoff. f_equal. apply fill_full.
    unfold make. rewrite length_replicate, length_take, length_drop.
    unfold len in *. lia.
  - rewrite Hcur', Hcur, drop_drop, Hnr'', <- Hoff. f_equal. lia.
Qed.

(** X6: however [PrefetchWithReader] ends, the in-progress flag is
    cleared and the reader keeps its table of contents; the error it
    returns is never [io.EOF] or [io.ErrUnexpectedEOF] themselves: a
    truncated archive is no error. *)
Theorem PrefetchWithReader_exit gunzip fuel (gr : @Reader C) sr prefetchSize :
  let res := PrefetchWithReader sha256hex gunzip fuel gr sr prefetchSize in
  prefetchInProgress res.1.2 = false /\
  gr_r res.1.2 = gr_r gr /\
  forall e, res.1.1 = EReturned (Some e) ->
    is_EOF e = false /\ is_ErrUnexpectedEOF e = false.
Proof.
  assert (Hfc : forall g n,
    let res := fetch_and_cache sha256hex gunzip fuel g sr n in
    gr_r res.1.2 = gr_r g /\
    forall e, res.1.1 = EReturned (Some e) ->
      is_EOF e = false /\ is_ErrUnexpectedEOF e = false).
  { intros g n. unfold fetch_and_cache. case_bool_decide; [done|].
    destruct (sr_ReadFull sr _ _) as [delivered err].
    destruct (match err with Some e => negb (is_EOF e) | None => false end) eqn:Hfailed.
    { simpl. split; [done|]. destruct err as [e0|]; [|done]. by intros e [= <-]. }
    unfold CacheTarGzWithReader.
    destruct (gunzip _) as [tr|gerr].
    - destruct (entry_loop _ _ _ _ _) as [[[e0|]| |] c]; simpl; try done.
      destruct (is_EOF e0 || is_ErrUnexpectedEOF e0); simpl; [done|].
      split; [done|]. by intros e [= <-].
    - simpl. destruct (is_EOF gerr || is_ErrUnexpectedEOF gerr); simpl; [done|].
      split; [done|]. by intros e [= <-]. }
  unfold PrefetchWithReader. cbv zeta.
  assert (Hdone : forall r : eoutcome * @Reader C * SectionReader,
    gr_r r.1.2 = gr_r gr ->
    (forall e, r.1.1 = EReturned (Some e) ->
       is_EOF e = false /\ is_ErrUnexpectedEOF e = false) ->
    prefetchInProgress (prefetch_done r).1.2 = false /\
    gr_r (prefetch_done r).1.2 = gr_r gr /\
    forall e, (prefetch_done r).1.1 = EReturned (Some e) ->
      is_EOF e = false /\ is_ErrUnexpectedEOF e = false).
  { intros [[o g'] s']; simpl. done. }
  destruct (r_Lookup _ NoPrefetchLandmark); [apply Hdone; simpl; done|].
  destruct (r_Lookup _ PrefetchLandmark) as [e0|].
  - case_bool_decide.
    + apply Hdone; simpl; [done|]. by intros e [= <-].
    + apply Hdone; [exact (proj1 (Hfc _ _))|exact (proj2 (Hfc _ _))].
  - case_bool_decide;
      (apply Hdone; [exact (proj1 (Hfc _ _))|exact (proj2 (Hfc _ _))]).
Qed.

(** X7: an archive prefix that holds only the two landmarks and the TOC
    leaves the cache as it is; the walk ends with nil at a clean end of
    the archive and with the tar reader's error otherwise. *)
Theorem entry_loop_passes_over fuel sr t (c : C) :
  Forall (fun e => passed_over (h_Name e)) (pending t) ->
  (length (pending t) < fuel)%nat ->
  entry_loop sha256hex fuel sr t c =
    (EReturned (if is_EOF (tail_err t) then None else Some (tail_err t)), c).
Proof.
  revert t. induction fuel as [|fuel IH]; intros t Hall Hfuel; [lia|]. simpl.
  unfold tar_Next. destruct (pending t) as [|e es] eqn:Hpend.
  { by destruct (is_EOF _). }
  apply Forall_cons in Hall as [He Hes].
  rewrite bool_decide_true by exact He.
  rewrite IH; simpl; [done|done|]. simpl in Hfuel. lia.
Qed.

End ChunkLoop.

Section OpenThenRead.
Context {C : Type} `{KeepingCache C}.
Variable sha256hex : string -> string.

(** X8: a chunk that the chunk loop has just stored is a hit for
    [ReadAt] on the file opened under the entry's name: the iteration
    at that chunk copies from the stored bytes and does not consult the
    section reader, when the cache keeps what is added. *)
Theorem prefetched_chunk_hits open sr h fe ce sf offset
    (st st' : @cstate C) (rst : @rstate C) :
  r_Lookup sr (trim_slash (h_Name h)) = Some fe ->
  trim_slash (h_Name h) = h_Name h ->
  OpenFile open sr (h_Name h) = (Some sf, None) ->
  r_ChunkEntryForOffset sr (h_Name h) (c_nr st) = Some ce ->
  probe (c_cache st) (genID sha256hex (Digest fe) (ChunkOffset ce) (ChunkSize ce)) ce
    = None ->
  chunk_iter sha256hex sr h fe st = CNext st' ->
  cache rst = c_cache st' ->
  add64 offset (nr rst) = c_nr st ->
  ReadAt_iter sha256hex sf offset rst =
    copy_chunk offset ce
      (fill (make (ChunkSize ce)) (take (Z.to_nat (ChunkSize ce)) (cur (c_tr st)))) rst.
Proof.
  intros Hfe Htrim Hopen Hce Hmiss Hit Hcache Hcursor.
  destruct (chunk_iter_miss sha256hex sr h fe st st' ce Hce Hmiss Hit)
    as (Hsize & _ & _ & _ & _ & Hstored).
  unfold OpenFile in Hopen. destruct (open _) as [section|]; [|discriminate].
  rewrite <- Htrim, Hfe in Hopen. injection Hopen as <-.
  unfold ReadAt_iter. simpl. rewrite Htrim, Hcursor, Hce.
  unfold probe. rewrite Hcache, Hstored. rewrite fetch_added.
  rewrite bool_decide_true; [done|]. apply len_fill_make. lia.
Qed.

End OpenThenRead.
End PrefetchExtra.

(** ** Further properties of package remote *)
Module RemoteExtra.
Import Go Remote RemoteMore ReaderProps RemoteProps FetchProps.

Ltac steps :=
  unfold mbind, M_bind, mret, M_ret, pool, pool_store, round_trip in *; simpl in *.

Ltac fresh_frame env nr endpoint :=
  match goal with
  | |- context [authnTransport env nr ?s0] =>
    let Ha := fresh "Ha" in
    pose proof (authnTransport_pool env nr s0) as Ha;
    destruct (authnTransport env nr s0) as [[?t | ?aerr] ?s1]; simpl in Ha;
    [ match goal with
      | |- context [redirect env endpoint ?t1 ?s1'] =>
        let Hr := fresh "Hr" in
        pose proof (redirect_pool env endpoint t1 s1') as Hr;
        destruct (redirect env endpoint t1 s1') as [[?url [?rerr | ]] ?s2]; simpl in Hr;
        [ intros [= <- <- <-]; split; [intros; congruence | intros _; split; congruence]
        | intros [= <- <- <-]; simpl; split; [|done];
          intros k Hk; rewrite lookup_insert_ne by done; congruence ]
      end
    | intros [= <- <- <-]; split; [intros; congruence | intros _; split; congruence] ]
  end.

Section Resolver.
Context {World RoundTripper : Type}.
Variable env : Env World RoundTripper.
Variable config : gmap string ResolverConfig.

Lemma getSize_pool u t (s : @RState World RoundTripper) :
  trPool (getSize env u t s).2 = trPool s.
Proof.
  unfold getSize. destruct (NewRequest _ _ _); steps; [done|].
  destruct (RoundTrip _ _ _ _) as [[res|err] w]; simpl; [|done].
  by case_bool_decide.
Qed.

(** X9: [resolveReference] touches the transport pool at the name of
    the reference only, and only when it succeeds: when it returns an
    error the pool is as it was and the URL is empty. *)
Theorem resolveReference_pool_frame nr digest (s s' : @RState World RoundTripper) u err :
  resolveReference env nr digest s = ((u, err), s') ->
  (forall k, k <> ref_Name nr -> trPool s' !! k = trPool s !! k) /\
  (err <> None -> trPool s' = trPool s /\ u = EmptyString).
Proof.
  unfold resolveReference. steps.
  set (endpoint := (_ +:+ _)%string).
  destruct (trPool s !! ref_Name nr) as [t0|] eqn:Hpool.
  - pose proof (redirect_pool env endpoint t0 s) as Hp.
    destruct (redirect env endpoint t0 s) as [[url [rerr|]] s2]; simpl in Hp.
    + fresh_frame env nr endpoint.
    + intros [= <- <- <-]. split; [intros; congruence|done].
  - fresh_frame env nr endpoint.
Qed.

Lemma redirect_url endpoint t (s s' : @RState World RoundTripper) u :
  redirect env endpoint t s = ((u, None), s') ->
  u = endpoint \/ u <> EmptyString.
Proof.
  unfold redirect. destruct (NewRequest _ _ _); steps; [discriminate|].
  destruct (RoundTrip _ _ _ _) as [[res|rerr] w]; simpl; [|discriminate].
  case_bool_decide; simpl; [intros [= <- <-]; by left|].
  case_bool_decide as Hredir; simpl; [|discriminate].
  destruct (bool_decide (_ = 3)); simpl; [|discriminate].
  intros [= <- <-]. by right.
Qed.

Lemma endpoint_nonempty (scheme rest : string) :
  (scheme +:+ "://" +:+ rest)%string <> EmptyString.
Proof.
  destruct scheme; [rewrite append_nil|]; rewrite append_cons; discriminate.
Qed.

Ltac fresh_url endpoint :=
  match goal with
  | |- context [authnTransport env ?nr ?s0] =>
    destruct (authnTransport env nr s0) as [[?t | ?aerr] ?s1]; simpl;
    [ match goal with
      | |- context [redirect env endpoint ?t1 ?s1'] =>
        let Hr := fresh "Hr" in
        destruct (redirect env endpoint t1 s1') as [[?url [?rerr | ]] ?s2] eqn:Hr; simpl;
        [ discriminate
        | intros [= <- <-]; by destruct (redirect_url _ _ _ _ _ Hr) as [->|?] ]
      end
    | discriminate ]
  end.

Lemma resolveReference_url nr digest (s s' : @RState World RoundTripper) u :
  resolveReference env nr digest s = ((u, None), s') -> u <> EmptyString.
Proof.
  unfold resolveReference. steps.
  set (endpoint := (_ +:+ _)%string).
  assert (Hend : endpoint <> EmptyString) by apply endpoint_nonempty.
  destruct (trPool s !! ref_Name nr) as [t0|].
  - destruct (redirect env endpoint t0 s) as [[url [rerr|]] s2] eqn:Hred.
    + fresh_url endpoint.
    + intros [= <- <-]. by destruct (redirect_url _ _ _ _ _ Hred) as [->|?].
  - fresh_url endpoint.
Qed.

Lemma first_success_url named digest hosts (s s' : @RState World RoundTripper) nr u t n :
  first_success env named digest hosts s (Some (nr, u, t, n)) s' ->
  u <> EmptyString.
Proof.
  intros Hfs. remember (Some (nr, u, t, n)) as res eqn:Hres.
  induction Hfs as [s|h hs s nr0 u0 t0 n0 s' Hwin|h hs s s1 res s' Hfail Hfs IH];
    [discriminate| |by apply IH].
  injection Hres as -> -> -> ->.
  destruct Hwin as (_ & _ & s1 & Hrr & _ & _).
  by eapply resolveReference_url.
Qed.

Lemma first_success_pool named digest hosts (s s' : @RState World RoundTripper) nr u t n :
  first_success env named digest hosts s (Some (nr, u, t, n)) s' ->
  trPool s' !! ref_Name nr = Some t.
Proof.
  intros Hfs. remember (Some (nr, u, t, n)) as res eqn:Hres.
  induction Hfs as [s|h hs s nr0 u0 t0 n0 s' Hwin|h hs s s1 res s' Hfail Hfs IH];
    [discriminate| |by apply IH].
  injection Hres as -> -> -> ->.
  destruct Hwin as (_ & _ & s1 & _ & Hpool & Hsize).
  pose proof (getSize_pool u t s1) as Hg. rewrite Hsize in Hg. simpl in Hg.
  by rewrite Hg.
Qed.

(** What [resolve] can return. *)
Lemma resolve_cases ref digest (s : @RState World RoundTripper) :
  (exists nr u t n s',
      resolve env config ref digest s =
        ((Some {| f_ref := ref; f_digest := digest; f_nref := Some nr;
                  f_url := u; f_tr := Some t |}, n, None), s') /\
      trPool s' !! ref_Name nr = Some t /\ u <> EmptyString) \/
  (exists e s', resolve env config ref digest s = ((None, 0, Some e), s')).
Proof.
  unfold resolve.
  destruct (ParseDockerRef env ref) as [named|perr] eqn:Hparse.
  2:{ right. by exists perr, s. }
  destruct (first_success_total env named digest (hosts_of config named) s)
    as (res & s' & Hfs).
  pose proof (try_hosts_spec env named digest _
    {| nref := None; url := EmptyString; tr := None; sz := 0;
       rErr := Some (Errorf "failed to resolve" []) |} _ _ _ _ Hfs eq_refl) as Hrun.
  steps. destruct res as [[[[nr u] t] n]|].
  - left. exists nr, u, t, n, s'. rewrite Hrun. simpl. split; [done|].
    split; [by eapply first_success_pool|by eapply first_success_url].
  - right. destruct Hrun as (v' & err' & -> & Herr' & _).
    rewrite Herr'. simpl. by eexists _, s'.
Qed.

(** X10: [resolve] returns either a fetcher with a nil error or no
    fetcher, size 0 and an error. The fetcher carries the reference and
    digest asked for, a reference and a transport that are not nil and a
    URL that is not empty, and its transport is the one the pool holds
    for that reference. *)
Theorem resolve_result_shape ref digest (s : @RState World RoundTripper) :
  (exists f nr t n s',
      resolve env config ref digest s = ((Some f, n, None), s') /\
      f_ref f = ref /\ f_digest f = digest /\
      f_nref f = Some nr /\ f_tr f = Some t /\
      trPool s' !! ref_Name nr = Some t /\ f_url f <> EmptyString) \/
  (exists e s', resolve env config ref digest s = ((None, 0, Some e), s')).
Proof.
  destruct (resolve_cases ref digest s)
    as [(nr & u & t & n & s' & Hres & Hpool & Hurl)|Herr]; [left|by right].
  eexists _, nr, t, n, s'. split; [exact Hres|]. simpl. done.
Qed.

(** X11: a fetcher that [resolve] returned can be used: neither [fetch]
    nor [check] panics on a nil transport, whatever the options. *)
Theorem resolved_fetcher_usable ref digest (s s' : @RState World RoundTripper)
    f n err requests opts w :
  resolve env config ref digest s = ((Some f, n, err), s') ->
  (fetch env f requests opts w).1 <> FetchPanicked /\
  (check env f w).1 <> CheckPanicked.
Proof.
  intros Hres.
  destruct (resolve_cases ref digest s)
    as [(nr & u & t & n' & s'' & Hres' & _)|(e & s'' & Hres')];
    rewrite Hres in Hres'; [|discriminate].
  injection Hres' as -> _ _ _. split.
  - unfold fetch. cbv zeta. simpl.
    destruct (NewRequest _ _ _); [done|].
    destruct (opt_tr _) as [t'|]; destruct (RoundTrip _ _ _ _) as [[res|rerr] w'];
      try done; by destruct (read_response _ _ _ _).
  - unfold check. simpl. destruct (NewRequest _ _ _); [done|].
    destruct (RoundTrip _ _ _ _) as [[res|rerr] w']; [|done].
    by destruct (_ && _).
Qed.

(** X12: [Refresh] never alters the size, the chunk size or the check
    interval of a blob; when it returns an error the blob is as it was,
    and when it returns nil the blob has a fetcher with a transport and
    [lastCheck] is the time of the call. *)
Theorem Refresh_preserves now target target' err (s s' : @RState World RoundTripper) :
  Refresh env config now target s = (Refreshed target' err, s') ->
  (err <> None -> target' = target) /\
  (forall bl bl', target = PtrBlob bl -> target' = PtrBlob bl' ->
     b_size bl' = b_size bl /\ b_chunkSize bl' = b_chunkSize bl /\
     b_checkInterval bl' = b_checkInterval bl) /\
  (err = None ->
     exists bl' f t, target' = PtrBlob bl' /\ b_fetcher bl' = Some f /\
       f_tr f = Some t /\ b_lastCheck bl' = now).
Proof.
  unfold Refresh, refresh. destruct target as [bl|]; steps.
  2:{ intros [= <- <- <-]. repeat split; try done. }
  destruct (b_fetcher bl) as [f|]; [|discriminate].
  destruct (resolve_cases (f_ref f) (f_digest f) s)
    as [(nr & u & t & n & s1 & -> & _)|(e & s1 & ->)]; simpl.
  - case_bool_decide.
    + intros [= <- <- <-]. split; [done|]. split; [|done].
      by intros bl0 bl' [= <-] [= <-].
    + intros [= <- <- <-]. split; [done|]. split.
      * by intros bl0 bl' [= <-] [= <-].
      * intros _. by eexists _, _, t.
  - intros [= <- <- <-]. split; [done|]. split; [|done].
    by intros bl0 bl' [= <-] [= <-].
Qed.

(** X13: when [Resolve] returns nil it returns a blob of the size and
    with the fetcher that [resolve] found, checked at the time of the
    call; its chunk size is the configured one, or 50000 for zero, and
    is never zero; with [CheckAlways] its check interval is zero. When
    [Resolve] returns an error there is no blob. *)
Theorem Resolve_blob now ref digest bc (s s' : @RState World RoundTripper) ob err :
  Resolve env config now ref digest bc s = ((ob, err), s') ->
  (err <> None -> ob = None) /\
  (err = None ->
     exists bl f n,
       ob = Some (PtrBlob bl) /\
       resolve env config ref digest s = ((Some f, n, None), s') /\
       b_fetcher bl = Some f /\ b_size bl = n /\ b_lastCheck bl = now /\
       b_chunkSize bl <> 0 /\
       (ChunkSize bc <> 0 -> b_chunkSize bl = ChunkSize bc) /\
       (ChunkSize bc = 0 -> b_chunkSize bl = 50000) /\
       (CheckAlways bc = true -> b_checkInterval bl = 0)).
Proof.
  unfold Resolve. steps.
  destruct (resolve_cases ref digest s)
    as [(nr & u & t & n & s1 & -> & _)|(e & s1 & ->)]; simpl.
  - intros [= <- <- <-]. split; [done|]. intros _.
    eexists _, _, n. split; [done|]. split; [done|]. simpl.
    repeat split; try done.
    + case_bool_decide; [by unfold defaultChunkSize|done].
    + intros Hne. by rewrite bool_decide_false.
    + intros ->. by unfold defaultChunkSize.
    + by intros ->.
  - intros [= <- <- <-]. split; [done|]. intros Hn. discriminate.
Qed.

End Resolver.

(** *** Decimal numbers *)

Lemma digit_of_char (d : N) :
  (d < 10)%N -> digit_of (pretty_N_char d) = Some (Z.of_N d).
Proof.
  intros Hd.
  assert (d = 0 \/ d = 1 \/ d = 2 \/ d = 3 \/ d = 4 \/ d = 5 \/ d = 6 \/ d = 7 \/
          d = 8 \/ d = 9)%N as Hcases by lia.
  repeat (destruct Hcases as [-> | Hcases]; [by vm_compute|]). subst. by vm_compute.
Qed.

Lemma digits_app (s1 s2 : string) acc :
  digits (s1 +:+ s2) acc = digits s1 acc ≫= digits s2.
Proof.
  revert acc. induction s1 as [|a s1 IH]; intros acc; [done|].
  rewrite append_cons. simpl. destruct (digit_of a); [apply IH|done].
Qed.

Lemma pretty_N_go_app (x : N) (s : string) :
  pretty_N_go x s = (pretty_N_go x EmptyString +:+ s)%string.
Proof.
  revert s. induction (N.lt_wf_0 x) as [x _ IH]; intros s.
  destruct (decide (x = 0)%N) as [->|Hx]; [by rewrite !pretty_N_go_0|].
  rewrite (pretty_N_go_step x s), (pretty_N_go_step x EmptyString) by lia.
  assert (Hlt : (x `div` 10 < x)%N) by (apply N.div_lt; lia).
  rewrite (IH _ Hlt (String _ s)), (IH _ Hlt (String _ EmptyString)).
  by rewrite append_assoc.
Qed.

(** Reading back the digits that [%d] wrote. *)
Lemma digits_pretty (x : N) acc :
  exists k : Z, 0 <= k /\
    digits (pretty_N_go x EmptyString) acc = Some (acc * 10 ^ k + Z.of_N x).
Proof.
  revert acc. induction (N.lt_wf_0 x) as [x _ IH]; intros acc.
  destruct (decide (x = 0)%N) as [->|Hx].
  { exists 0. rewrite pretty_N_go_0. simpl. split; [done|]. f_equal. lia. }
  rewrite pretty_N_go_step by lia. rewrite pretty_N_go_app, digits_app.
  destruct (IH (x `div` 10)%N (N.div_lt x 10 ltac:(lia) eq_refl) acc) as (k & Hk & ->).
  simpl. rewrite digit_of_char by (apply N.mod_lt; lia).
  exists (k + 1). split; [lia|]. f_equal.
  rewrite Z.pow_add_r by lia.
  pose proof (N.div_mod x 10 ltac:(lia)) as Hdm.
  rewrite N2Z.inj_mod, (N2Z.inj_div x 10). change (Z.of_N 10) with 10.
  pose proof (Z.div_mod (Z.of_N x) 10 ltac:(lia)). lia.
Qed.

Lemma ParseInt_digits (x : positive) (neg : bool) :
  Z.pos x < 2 ^ 63 \/ (neg = true /\ Z.pos x = 2 ^ 63) ->
  let s := pretty_N_go (N.pos x) EmptyString in
  ParseInt (if neg then String "-" s else s) =
    (if neg then Z.neg x else Z.pos x, None).
Proof.
  intros Hrange s.
  destruct (digits_pretty (N.pos x) 0) as (k & _ & Hd). fold s in Hd. simpl in Hd.
  assert (Hbody : exists a s', s = String a s' /\
            Ascii.eqb a "+" = false /\ Ascii.eqb a "-" = false).
  { destruct s as [|a s']; [simpl in Hd; discriminate|].
    exists a, s'. split; [done|]. simpl in Hd.
    destruct (digit_of a) eqn:Ha; [|discriminate].
    split; destruct (Ascii.eqb_spec a "+"), (Ascii.eqb_spec a "-"); subst; try done;
      vm_compute in Ha; discriminate. }
  destruct Hbody as (a & s' & Hs & Hplus & Hminus).
  unfold ParseInt. destruct neg.
  - change (Ascii.eqb "-" "+") with false. change (Ascii.eqb "-" "-") with true.
    cbv iota. rewrite Hs. rewrite <- Hs, Hd. simpl.
    rewrite bool_decide_false by lia. done.
  - rewrite Hs, Hplus, Hminus. rewrite <- Hs, Hd. simpl.
    destruct Hrange as [Hlt|[? _]]; [|done].
    rewrite bool_decide_false by lia. done.
Qed.

(** [strconv.ParseInt] reads back what [%d] writes of an [int64]. *)
Lemma ParseInt_fmt_d (z : Z) :
  - 2 ^ 63 <= z < 2 ^ 63 -> ParseInt (fmt_d z) = (z, None).
Proof.
  intros Hz. unfold fmt_d, pretty, pretty_Z. destruct z as [|x|x].
  - by vm_compute.
  - unfold pretty, pretty_positive, pretty, pretty_N.
    rewrite decide_False by done.
    apply (ParseInt_digits x false). left. lia.
  - unfold pretty, pretty_positive, pretty, pretty_N.
    rewrite decide_False by done.
    apply (ParseInt_digits x true).
    destruct (decide (Z.pos x = 2 ^ 63)); [by right|left; lia].
Qed.

(** What [ParseInt] returns without an error is an [int64]. *)
Lemma ParseInt_range (s : string) n :
  ParseInt s = (n, None) -> - 2 ^ 63 <= n < 2 ^ 63.
Proof.
  unfold ParseInt.
  destruct (match s with
            | EmptyString => (false, s)
            | String a s' =>
              if Ascii.eqb a "+" then (false, s')
              else if Ascii.eqb a "-" then (true, s') else (false, s)
            end) as [neg body].
  destruct body as [|a body]; [discriminate|].
  assert (Hnn : forall t acc v, 0 <= acc -> digits t acc = Some v -> 0 <= v).
  { induction t as [|c t IH]; intros acc v Hacc; simpl; [by intros [= <-]|].
    unfold digit_of. case_bool_decide; [|discriminate].
    apply IH. lia. }
  destruct (digits (String a body) 0) as [un|] eqn:Hd; [|discriminate].
  apply Hnn in Hd; [|done].
  destruct neg; simpl; repeat case_bool_decide; try discriminate;
    intros [= <-]; lia.
Qed.

Section Fetch.
Context {World RoundTripper : Type}.
Variable env : Env World RoundTripper.

(** X14: [parseRange] gives back the region whose bounds the header
    spells: when the expression's submatches for the two numbers are
    the decimal forms of two values from 0 to [2^63 - 1], these are the
    region's bounds and there is no error. The bounds are not compared:
    an end below the beginning is accepted. *)
Theorem parseRange_decimal header whole b0 e0 total rest :
  contentRange_submatch env header = whole :: fmt_d b0 :: fmt_d e0 :: total :: rest ->
  0 <= b0 < 2 ^ 63 -> 0 <= e0 < 2 ^ 63 ->
  parseRange env header = ({| b := b0; e := e0 |}, None).
Proof.
  intros Hm Hb He.
  assert (- 2 ^ 63 <= b0 < 2 ^ 63) as Hb' by lia.
  assert (- 2 ^ 63 <= e0 < 2 ^ 63) as He' by lia. clear Hb He.
  rename Hb' into Hb, He' into He. unfold parseRange. rewrite Hm. cbv zeta.
  rewrite bool_decide_false by (simpl; lia). simpl.
  by rewrite (ParseInt_fmt_d b0 Hb), (ParseInt_fmt_d e0 He).
Qed.

Lemma read_parts_sized url parts last m m' err :
  sized m ->
  read_parts env url parts last m = (Some m', err) ->
  err = None /\ sized m'.
Proof.
  revert m. induction parts as [|part parts IH]; intros m Hm; simpl.
  { destruct (is_EOF last); [by intros [= <-]|].
    by intros [= ]. }
  destruct (parseRange env _) as [reg [perr|]]; [discriminate|].
  destruct (PartErr part); [discriminate|].
  case_bool_decide as Hlen; [discriminate|].
  apply IH. intros reg' data. destruct (decide (reg = reg')) as [<-|Hne].
  - rewrite lookup_insert_eq. intros [= <-].
    destruct (decide (len (PartBody part) = size reg)); [done|by destruct Hlen].
  - rewrite lookup_insert_ne by done. apply Hm.
Qed.

(** X15: whenever [fetch] returns a map, the error is nil and every
    entry is as long as its region: the value under [{b, e}] has
    [e - b + 1] bytes, for the whole blob of a 200 answer as for the
    parts of a 206 answer. *)
Theorem fetch_entries_sized (f : fetcher) requests opts (w : World) m err :
  (fetch env f requests opts w).1 = Fetched (Some m) err ->
  err = None /\
  forall reg data, m !! reg = Some data -> len data = size reg.
Proof.
  unfold fetch. cbv zeta.
  destruct (NewRequest _ _ _); [discriminate|].
  destruct (match opt_tr _ with Some t => Some t | None => f_tr f end) as [t|];
    [|discriminate].
  destruct (RoundTrip _ _ _ _) as [[res|rerr] w']; [|discriminate].
  destruct (read_response env (f_url f) res ∅) as [data rerr] eqn:Hread. simpl.
  intros [= -> ->]. revert Hread. unfold read_response.
  destruct (_ && _); [discriminate|].
  case_bool_decide as Hok.
  - destruct (BodyErr res); [discriminate|].
    destruct (ParseInt _) as [n [perr|]] eqn:Hparse; [discriminate|].
    case_bool_decide as Hlen; [discriminate|].
    intros [= <- <-]. split; [done|].
    intros reg data. destruct (decide ({| b := 0; e := sub64 n 1 |} = reg)) as [<-|Hne].
    + rewrite lookup_insert_eq. intros [= <-].
      apply ParseInt_range in Hparse.
      assert (Hn : len (Body res) = n).
      { destruct (decide (len (Body res) = n)); [done|by destruct Hlen]. }
      unfold size, add64, sub64; simpl.
      assert (0 <= n) by (unfold len in Hn; lia).
      rewrite (wrap64_id (n - 1)) by lia.
      rewrite (wrap64_id (n - 1 - 0)) by lia.
      rewrite wrap64_id by lia. lia.
    + rewrite lookup_insert_ne by done. by rewrite lookup_empty.
  - destruct (ParseMediaType _ _) as [[mediaType params] merr].
    destruct (_ || _); [discriminate|].
    destruct (multipart_NewReader _ _ _) as [parts last].
    intros Hparts. apply read_parts_sized in Hparts; [done|].
    intros reg data. by rewrite lookup_empty.
Qed.

(** X16: a 200 answer whose [Content-Length] spells the length of its
    body gives one entry, the whole body under the region from 0 to the
    length less one, whatever regions were asked for. *)
Theorem fetch_200_one_entry (f : fetcher) requests opts (w : World) t res :
  let opt := apply_options opts in
  let ctx := match opt_ctx opt with Some c => c | None => WithTimeout 30 end in
  NewRequest env "GET" (f_url f) = None ->
  match opt_tr opt with Some t' => Some t' | None => f_tr f end = Some t ->
  (RoundTrip env t (fetch_request (f_url f) ctx requests) w).1 = inl res ->
  StatusCode res = 200 -> BodyErr res = None ->
  Header_Get (RespHeader res) "Content-Length" = fmt_d (len (Body res)) ->
  len (Body res) < 2 ^ 63 ->
  (fetch env f requests opts w).1 =
    Fetched (Some {[ {| b := 0; e := len (Body res) - 1 |} := Body res ]}) None.
Proof.
  intros opt ctx Hreq Htr Htrip Hcode Herr Hlength Hmax.
  unfold fetch. cbv zeta. fold opt. fold ctx. rewrite Hreq, Htr.
  destruct (RoundTrip env t _ w) as [r w']. simpl in Htrip. subst r.
  assert (Hlen : 0 <= len (Body res)) by (unfold len; lia).
  rewrite (read_response_200 env (f_url f) res (len (Body res)) Hcode Herr); [|
    rewrite Hlength; apply ParseInt_fmt_d; lia|done].
  unfold sub64. by rewrite wrap64_id by lia.
Qed.

Lemma read_parts_short url good part rest last m :
  Forall (part_whole env) good -> part_short env part ->
  read_parts env url (good ++ part :: rest) last m = (None, None).
Proof.
  intros Hgood (reg & [Hrange Herr] & Hlen). revert m.
  induction Hgood as [|g good (greg & [Hgrange Hgerr] & Hglen) _ IH]; intros m; simpl.
  - rewrite Hrange, Herr. by rewrite bool_decide_true.
  - rewrite Hgrange, Hgerr. rewrite bool_decide_false by (intros Hne; by apply Hne).
    apply IH.
Qed.

(** X17: two failures of a 206 answer come back from [fetch] as a nil
    map with a nil error, because the error wrapped is the nil one of
    the step before: a media type that parses but is not
    [multipart/...], and a part whose body is not as long as its
    [Content-Range] says, after the dummy part and any number of parts
    that are as long. *)
Theorem fetch_206_silent (f : fetcher) requests opts (w : World) t res mediaType params :
  let opt := apply_options opts in
  let ctx := match opt_ctx opt with Some c => c | None => WithTimeout 30 end in
  NewRequest env "GET" (f_url f) = None ->
  match opt_tr opt with Some t' => Some t' | None => f_tr f end = Some t ->
  (RoundTrip env t (fetch_request (f_url f) ctx requests) w).1 = inl res ->
  StatusCode res = 206 ->
  ParseMediaType env (Header_Get (RespHeader res) "Content-Type")
    = (mediaType, params, None) ->
  String.prefix "multipart/" mediaType = false \/
  (exists dummy good part rest last,
     multipart_NewReader env (Body res) (params "boundary")
       = (dummy :: good ++ part :: rest, last) /\
     Forall (part_whole env) good /\ part_short env part) ->
  (fetch env f requests opts w).1 = Fetched None None.
Proof.
  intros opt ctx Hreq Htr Htrip Hcode Hmedia Hcase.
  unfold fetch. cbv zeta. fold opt. fold ctx. rewrite Hreq, Htr.
  destruct (RoundTrip env t _ w) as [r w']. simpl in Htrip. subst r.
  assert (Hread : read_response env (f_url f) res ∅ = (None, None)).
  { unfold read_response. rewrite Hcode, Hmedia. simpl.
    destruct Hcase as [->|(dummy & good & part & rest & last & -> & Hgood & Hshort)];
      [done|].
    destruct (String.prefix _ _); [|done]. simpl.
    by apply read_parts_short. }
  by rewrite Hread.
Qed.

(** X18: [check] on a fetcher with a transport makes one round trip, a
    GET for the first two bytes under a ten second timeout, and returns
    nil exactly when the answer has status 200 or 206. *)
Theorem check_nil_iff (f : fetcher) (w : World) t :
  NewRequest env "GET" (f_url f) = None ->
  f_tr f = Some t ->
  let req := {| Method := "GET"; URL := f_url f; Header := [("Range", "bytes=0-1")];
                Ctx := WithTimeout 10; Close := false |} in
  (check env f w).2 = (RoundTrip env t req w).2 /\
  ((check env f w).1 = Checked None <->
   exists res, (RoundTrip env t req w).1 = inl res /\
               (StatusCode res = 200 \/ StatusCode res = 206)).
Proof.
  intros Hreq Htr req. unfold check. rewrite Hreq, Htr. fold req.
  destruct (RoundTrip env t req w) as [[res|rerr] w']; simpl.
  - split; [by destruct (_ && _)|].
    destruct (decide (StatusCode res = 200 \/ StatusCode res = 206)) as [Hs|Hs].
    + rewrite (proj2 (andb_false_iff _ _)).
      * split; [by exists res|done].
      * destruct Hs as [Hs|Hs]; [left|right]; apply bool_decide_eq_false; lia.
    + rewrite !bool_decide_true by lia. simpl. split; [discriminate|].
      by intros (res' & [= <-] & Hs').
  - split; [done|]. split; [discriminate|]. by intros (res' & [=] & _).
Qed.

End Fetch.
End RemoteExtra.

Module ExtraScenarios.
Import Go Reader Fixtures ReaderMore MoreFixtures ReaderProps Scenarios.
Import ReaderExtra PrefetchExtra.

Lemma file_b_backed : backed_by file_b bytes_b.
Proof.
  split; [exact file_b_served|].
  intros ce [->| ->]%file_b_chunks; vm_compute; reflexivity.
Qed.

Lemma file_b_allocatable : allocatable file_b.
Proof. intros ce [->| ->]%file_b_chunks; vm_compute; discriminate. Qed.

(** A read of [b] from offset 3 into eight bytes. *)
Lemma ReadAt_returns_under_contract_witness :
  let buf := replicate 8 x00 in
  exists n err st',
    ReadAt plain_id 9 file_b empty_cache buf 3 = (Returned n err, st') /\
    0 <= n <= len buf /\ length (p st') = length buf.
Proof.
  intros buf.
  apply (ReadAt_returns_under_contract plain_id file_b empty_cache buf 3 file_b_contract
           file_b_allocatable).
  - lia.
  - vm_compute. reflexivity.
Defined.

(** A read of [b] from offset 2 into twenty bytes, the second chunk
    cached: six bytes of [b], and the read stops at its end. *)
Lemma ReadAt_reads_content_witness :
  let buf := replicate 20 x00 in
  exists n st',
    ReadAt plain_id 21 file_b warm_cache buf 2 = (Returned n None, st') /\
    0 <= n <= len buf /\
    take (Z.to_nat n) (p st') = take (Z.to_nat n) (drop (Z.to_nat 2) bytes_b) /\
    drop (Z.to_nat n) (p st') = drop (Z.to_nat n) buf /\
    (n = len buf \/ r_ChunkEntryForOffset (r file_b) (name file_b) (2 + n) = None).
Proof.
  intros buf.
  apply (ReadAt_reads_content plain_id file_b bytes_b file_b_contract file_b_unique
           file_b_backed warm_cache buf 2 file_b_allocatable).
  - lia.
  - vm_compute. reflexivity.
  - exact warm_cache_ok.
Defined.

Lemma ReadAt_keeps_cache_right_witness :
  cache_ok plain_id file_b
    (cache (ReadAt plain_id 9 file_b warm_cache (replicate 8 x00) 0).2).
Proof.
  exact (ReadAt_keeps_cache_right plain_id file_b file_b_unique 9 warm_cache
           (replicate 8 x00) 0 warm_cache_ok).
Defined.

(** [b] read a second time, the section reader now dead. *)
Lemma ReadAt_again_from_cache_witness :
  let buf := replicate 8 x00 in
  let st' := (ReadAt plain_id 9 file_b empty_cache buf 0).2 in
  ReadAt plain_id 9 (with_reader file_b dead_reader) (cache st') buf 0 =
    (Returned 8 None, st').
Proof.
  intros buf st'.
  apply (ReadAt_again_from_cache plain_id file_b file_b_unique 9 empty_cache buf 0 8 st'
           dead_reader).
  vm_compute. reflexivity.
Defined.

(** The first chunk of [b] missed at the start of the entry. *)
Lemma chunk_iter_miss_stores_entry_bytes_witness :
  let st := {| c_nr := 0; c_tr := tar_at_b; c_cache := empty_cache |} in
  c_cache after_b0 =
    Add (c_cache st) (genID plain_id (Digest chunk_b0) 0 4)
      (take (Z.to_nat 4) (drop (Z.to_nat 0) bytes_b)) /\
  c_nr after_b0 = 0 + 4 /\
  cur (c_tr after_b0) = drop (Z.to_nat (c_nr after_b0)) bytes_b.
Proof.
  intros st.
  apply (chunk_iter_miss_stores_entry_bytes plain_id toc_b entry_b chunk_b0 st after_b0
           chunk_b0 bytes_b).
  - reflexivity.
  - vm_compute. reflexivity.
  - vm_compute. reflexivity.
  - reflexivity.
  - vm_compute. discriminate.
  - vm_compute. discriminate.
  - vm_compute. reflexivity.
Defined.

(** The chunk just stored is read through a file whose section reader
    is dead. *)
Lemma prefetched_chunk_hits_witness :
  let st := {| c_nr := 0; c_tr := tar_at_b; c_cache := empty_cache |} in
  let rst := {| p := replicate 8 x00; nr := 0; cache := half_cache |} in
  ReadAt_iter plain_id (with_reader file_b dead_reader) 0 rst =
    copy_chunk 0 chunk_b0
      (fill (make (ChunkSize chunk_b0)) (take (Z.to_nat (ChunkSize chunk_b0)) bytes_b))
      rst.
Proof.
  intros st rst.
  apply (prefetched_chunk_hits plain_id open_dead toc_b entry_b chunk_b0 chunk_b0
           (with_reader file_b dead_reader) 0 st after_b0 rst).
  - reflexivity.
  - reflexivity.
  - reflexivity.
  - reflexivity.
  - vm_compute. reflexivity.
  - vm_compute. reflexivity.
  - reflexivity.
  - reflexivity.
Defined.

(** The archive breaks off after the landmark and the TOC. *)
Lemma entry_loop_passes_over_witness :
  entry_loop plain_id 3 toc_b tar_landmarks half_cache =
    (EReturned (Some ErrUnexpectedEOF), half_cache).
Proof.
  apply (entry_loop_passes_over plain_id 3 toc_b tar_landmarks half_cache).
  - constructor; [left; reflexivity|].
    constructor; [right; right; reflexivity|]. constructor.
  - simpl. lia.
Defined.

End ExtraScenarios.

Module RemoteExtraScenarios.
Import Go Remote RemoteFixtures RemoteMore MoreFixtures RemoteProps FetchProps.
Import RemoteExtra.

(** [mirror-a] is down: the pool stays empty. *)
Lemma resolveReference_pool_frame_witness :
  let env := network only_mirror_b "1000" [] in
  let run := resolveReference env ref_mirror_a layer_digest fresh in
  (forall k, k <> ref_Name ref_mirror_a -> trPool run.2 !! k = trPool fresh !! k) /\
  (run.1.2 <> None -> trPool run.2 = trPool fresh /\ run.1.1 = EmptyString).
Proof.
  intros env run.
  apply (resolveReference_pool_frame env ref_mirror_a layer_digest fresh run.2 run.1.1
           run.1.2).
  vm_compute. reflexivity.
Defined.

Lemma resolved_fetcher_usable_witness :
  let env := network only_mirror_b "1000" [] in
  (fetch env new_fetcher two_regions [] []).1 <> FetchPanicked /\
  (check env new_fetcher []).1 <> CheckPanicked.
Proof.
  intros env.
  apply (resolved_fetcher_usable env mirrors image layer_digest fresh
           (resolve env mirrors image layer_digest fresh).2 new_fetcher 1000 None).
  vm_compute. reflexivity.
Defined.

(** [Refresh] at time 77 of a blob checked at time 5. *)
Lemma Refresh_preserves_witness :
  let env := network only_mirror_b "1000" [] in
  let bl' := {| b_fetcher := Some new_fetcher; b_size := 1000; b_chunkSize := 50000;
                b_lastCheck := 77; b_checkInterval := 60 * Second |} in
  (Refresh env mirrors 77 (PtrBlob blob_1000) fresh).1 = Refreshed (PtrBlob bl') None /\
  b_size bl' = b_size blob_1000 /\ b_chunkSize bl' = b_chunkSize blob_1000 /\
  b_checkInterval bl' = b_checkInterval blob_1000.
Proof.
  intros env bl'.
  assert (Hrun : Refresh env mirrors 77 (PtrBlob blob_1000) fresh =
                 (Refreshed (PtrBlob bl') None,
                  (Refresh env mirrors 77 (PtrBlob blob_1000) fresh).2))
    by (vm_compute; reflexivity).
  split; [by rewrite Hrun|].
  destruct (Refresh_preserves env mirrors 77 (PtrBlob blob_1000) (PtrBlob bl') None
              fresh _ Hrun) as (_ & Hkeep & _).
  exact (Hkeep blob_1000 bl' eq_refl eq_refl).
Defined.

(** A blob with no chunk size configured, to be checked at every use. *)
Lemma Resolve_blob_witness :
  let env := network only_mirror_b "1000" [] in
  let bc := {| ValidInterval := 0; CheckAlways := true; ChunkSize := 0 |} in
  exists bl,
    (Resolve env mirrors 77 image layer_digest bc fresh).1.1 = Some (PtrBlob bl) /\
    b_lastCheck bl = 77 /\ b_chunkSize bl = 50000 /\ b_checkInterval bl = 0.
Proof.
  intros env bc.
  assert (Hrun : Resolve env mirrors 77 image layer_digest bc fresh =
                 (((Resolve env mirrors 77 image layer_digest bc fresh).1.1, None),
                  (Resolve env mirrors 77 image layer_digest bc fresh).2))
    by (vm_compute; reflexivity).
  destruct (Resolve_blob env mirrors 77 image layer_digest bc fresh _ _ None Hrun)
    as (_ & Hnil).
  destruct (Hnil eq_refl) as (bl & f & n & Hob & _ & _ & _ & Hnow & _ & _ & Hdef & Halways).
  exists bl. split; [exact Hob|]. split; [exact Hnow|].
  split; [exact (Hdef eq_refl)|exact (Halways eq_refl)].
Defined.

Lemma parseRange_decimal_witness :
  parseRange (ranges_network "multipart/byteranges" []) "bytes 10-19/100" =
    ({| b := 10; e := 19 |}, None).
Proof.
  apply (parseRange_decimal (ranges_network "multipart/byteranges" []) "bytes 10-19/100"
           "bytes 10-19/100" 10 19 "100" []).
  - vm_compute. reflexivity.
  - lia.
  - lia.
Defined.

(** Two ranges asked for and answered in three parts. *)
Lemma fetch_entries_sized_witness :
  let env := ranges_network "multipart/byteranges" [part_0_0; part_10_19; part_40_49] in
  let m : gmap region (list byte) :=
    <[ {| b := 40; e := 49 |} := replicate 10 x04 ]>
      (<[ {| b := 10; e := 19 |} := replicate 10 x01 ]> ∅) in
  (fetch env old_fetcher two_regions [] []).1 = Fetched (Some m) None /\
  forall reg data, m !! reg = Some data -> len data = size reg.
Proof.
  intros env m.
  assert (Hrun : (fetch env old_fetcher two_regions [] []).1 = Fetched (Some m) None)
    by (vm_compute; reflexivity).
  split; [exact Hrun|].
  exact (proj2 (fetch_entries_sized env old_fetcher two_regions [] [] m None Hrun)).
Defined.

(** The second range comes back one byte short. *)
Lemma fetch_206_silent_witness :
  let env := ranges_network "multipart/byteranges" [part_0_0; part_10_19; part_40_48] in
  (fetch env old_fetcher two_regions [] []).1 = Fetched None None.
Proof.
  intros env.
  apply (fetch_206_silent env old_fetcher two_regions [] [] "mirror-b"
           (response 206 "206 Partial Content"
              [("Content-Type", "multipart/byteranges")] [])
           "multipart/byteranges" (fun _ => "sep"%string)).
  - reflexivity.
  - reflexivity.
  - reflexivity.
  - reflexivity.
  - reflexivity.
  - right. exists part_0_0, [part_10_19], part_40_48, [], EOF.
    split; [reflexivity|]. split.
    + constructor; [|constructor].
      exists {| b := 10; e := 19 |}. split; [split|]; vm_compute; reflexivity.
    + exists {| b := 40; e := 49 |}. split; [split; vm_compute; reflexivity|].
      vm_compute. discriminate.
Defined.

(** The whole blob of 100 bytes in answer to a request for two ranges. *)
Lemma fetch_200_one_entry_witness :
  (fetch (network all_up "100" (replicate 100 x00)) old_fetcher two_regions [] []).1 =
    Fetched (Some {[ {| b := 0; e := 99 |} := replicate 100 x00 ]}) None.
Proof.
  apply (fetch_200_one_entry (network all_up "100" (replicate 100 x00)) old_fetcher
           two_regions [] [] "mirror-b"
           (response 200 "200 OK" [("Content-Length", "100")] (replicate 100 x00))).
  - reflexivity.
  - reflexivity.
  - reflexivity.
  - reflexivity.
  - reflexivity.
  - vm_compute. reflexivity.
  - vm_compute. reflexivity.
Defined.

Lemma check_nil_iff_witness :
  (check (network all_up "100" []) old_fetcher []).1 = Checked None.
Proof.
  apply (proj2 (check_nil_iff (network all_up "100" []) old_fetcher [] "mirror-b"
                  eq_refl eq_refl)).
  exists (response 200 "200 OK" [("Content-Length", "100")] []).
  split; [reflexivity|]. left. reflexivity.
Defined.

End RemoteExtraScenarios.
